(** * Agent coordination store: handlers and dedup window

    A shallow embedding of the TypeScript handlers installed by
    [scripts/fix_mcp_to_http.py] (claims, locks, tasks: remote backend first,
    local in-memory store on failure) and of the poll-loop fragment installed
    by [scripts/fix_bigbrain_duplication.py] (the dedup window). *)

From stdpp Require Import gmap strings list fin_maps pretty.
From Stdlib Require Import ZArith.

Set Warnings "-register-all".

Open Scope string_scope.
Open Scope Z_scope.

(** ** JavaScript values *)

Module Js.

(** The JSON documents exchanged with the backend and handed back to the
    caller.  An object is the list of its own properties, as [JSON.parse]
    builds it (distinct keys, in order). *)
Inductive json :=
| JNull
| JBool (b : bool)
| JNum (n : Z)
| JStr (s : string)
| JArr (items : list json)
| JObj (fields : list (string * json)).

(** A JavaScript value that may be [undefined]. *)
Definition value := option json.

(** [!x] is true for [undefined] and for the empty string. *)
Definition truthy (x : option string) : bool :=
  match x with
  | Some s => negb (String.eqb s "")
  | None => false
  end.

(** [x || d] on strings. *)
Definition or_else (x : option string) (d : string) : string :=
  match x with
  | Some s => if String.eqb s "" then d else s
  | None => d
  end.

Definition str (x : option string) : value := JStr <$> x.

Fixpoint assoc (k : string) (fields : list (string * json)) : value :=
  match fields with
  | [] => None
  | (k', v) :: rest => if String.eqb k k' then Some v else assoc k rest
  end.

(** The object literal [{ k1: v1, ... }] as [JSON.stringify] prints it:
    properties whose value is [undefined] are left out. *)
Definition object (props : list (string * value)) : json :=
  JObj (omap (fun '(k, v) => pair k <$> v) props).

(** Reading [o.k] from a stringified result. *)
Definition field (k : string) (o : json) : value :=
  match o with
  | JObj fields => assoc k fields
  | _ => None
  end.

End Js.
Import Js.

(** ** Completion of a computation: a value, or a thrown exception *)

Inductive outcome (A : Type) :=
| Ok (a : A)
| Throw.
Arguments Ok {A} a.
Arguments Throw {A}.

(** [data.k] on a parsed response body: reading a property of [null] throws a
    TypeError, other non-objects have no such property. *)
Definition prop (data : json) (k : string) : outcome value :=
  match data with
  | JNull => Throw
  | JObj fields => Ok (assoc k fields)
  | _ => Ok None
  end.

(** ** The local in-memory store *)

Record Claim := {
  what : string;
  by_ : string;
  since : Z
}.

(** A claim as the store hands it out, with the derived [stale] flag. *)
Record ClaimView := {
  claim : Claim;
  stale : bool
}.

Record Lock := {
  resourcePath : string;
  lockedBy : string;
  resourceType : string;
  reason : option string;
  acquiredAt : Z
}.

Record TaskInput := {
  title : string;
  description : option string;
  priority : string;
  status : string;
  createdBy : string;
  assignee : option string;
  tags : list string
}.

Record Task := {
  id : string;
  input : TaskInput;
  createdAt : Z
}.

Record Store := {
  staleThreshold : Z;
  claims : gmap string Claim;
  locks : gmap string Lock;
  tasks : list Task;
  taskCounter : N
}.

Definition with_claims (st : Store) (cs : gmap string Claim) : Store :=
  {| staleThreshold := staleThreshold st; claims := cs; locks := locks st;
     tasks := tasks st; taskCounter := taskCounter st |}.

Definition with_locks (st : Store) (ls : gmap string Lock) : Store :=
  {| staleThreshold := staleThreshold st; claims := claims st; locks := ls;
     tasks := tasks st; taskCounter := taskCounter st |}.

(** Modelled from the spec: the [stale] attribute of a claim ("derived",
    "becomes true once [since] exceeds a fixed staleness window"; glossary: "a
    claim whose age exceeds the staleness threshold").  The store class that
    computes it is not among the patch scripts. *)
Definition is_stale (st : Store) (now : Z) (c : Claim) : bool :=
  staleThreshold st <? now - since c.

Definition view (st : Store) (now : Z) (c : Claim) : ClaimView :=
  {| claim := c; stale := is_stale st now c |}.

(** Modelled from the spec: [store.checkClaim(what)], "returns current claim if
    one exists"; the method itself is missing from the sources. *)
Definition checkClaim (st : Store) (now : Z) (w : string) : option ClaimView :=
  view st now <$> claims st !! w.

(** Modelled from the spec: [store.claim(what, by, description)], missing from
    the sources.  "The registry installs [{what, by, since=now}], overwriting
    any stale claim (idempotent re-claim by the same owner is a no-op on state
    but returns success)."  So the caller's own claim is left as it is, and
    a claim of another agent is overwritten.  The conflict test is the
    caller's (see [claim_handler]). *)
Definition store_claim (st : Store) (now : Z) (w b : string)
    (desc : option string) : Claim * Store :=
  let fresh := {| what := w; by_ := b; since := now |} in
  match claims st !! w with
  | Some c =>
      if bool_decide (by_ c = b)
      then (c, st)
      else (fresh, with_claims st (<[w := fresh]> (claims st)))
  | None => (fresh, with_claims st (<[w := fresh]> (claims st)))
  end.

(** Modelled from the spec: [store.releaseClaim(what, by)], missing from the
    sources.  "Removes the claim only if currently held by [by]; otherwise
    returns false without raising." *)
Definition releaseClaim (st : Store) (w b : string) : bool * Store :=
  match claims st !! w with
  | Some c =>
      if bool_decide (by_ c = b)
      then (true, with_claims st (delete w (claims st)))
      else (false, st)
  | None => (false, st)
  end.

(** Modelled from the spec: [store.listClaims(includeStale)], missing from the
    sources.  "Staleness computed at read time from [since] vs. a fixed
    threshold; excludes stale entries unless explicitly requested." *)
Definition listClaims (st : Store) (now : Z) (includeStale : option bool)
    : list ClaimView :=
  let all := view st now <$> (map_to_list (claims st)).*2 in
  match includeStale with
  | Some true => all
  | _ => List.filter (fun v => negb (stale v)) all
  end.

(** The result of [store.acquireLock]: a lock, or an object with an [error]
    property. *)
Inductive LockResult :=
| LockHeld (currentHolder : string)
| Acquired (l : Lock).

(** Modelled from the spec: [store.acquireLock(resourcePath, lockedBy,
    resourceType, reason)], missing from the sources.  "[-> Lock | fails with
    LockHeld(currentHolder)]: unconditional exclusivity, no staleness escape
    hatch." *)
Definition acquireLock (st : Store) (now : Z) (p b ty : string)
    (why : option string) : LockResult * Store :=
  match locks st !! p with
  | Some l => (LockHeld (lockedBy l), st)
  | None =>
      let l := {| resourcePath := p; lockedBy := b; resourceType := ty;
                  reason := why; acquiredAt := now |} in
      (Acquired l, with_locks st (<[p := l]> (locks st)))
  end.

(** Modelled from the spec: the [error] property of a failed acquisition; the
    spec only says that it reports the current holder. *)
Definition held_error (currentHolder : string) : string :=
  "locked by " +:+ currentHolder.

(** Modelled from the spec: [store.createTask(input)], missing from the
    sources.  "Assigns a new unique id"; the status and the other attributes
    are the caller's. *)
Definition createTask (st : Store) (now : Z) (i : TaskInput) : Task * Store :=
  let t := {| id := "task-" +:+ pretty (taskCounter st); input := i;
              createdAt := now |} in
  (t, {| staleThreshold := staleThreshold st; claims := claims st;
         locks := locks st; tasks := (tasks st ++ [t])%list;
         taskCounter := N.succ (taskCounter st) |}).

(** ** JSON images of the store's records *)

Definition claim_json (v : ClaimView) : json :=
  object [("what", Some (JStr (what (claim v))));
          ("by", Some (JStr (by_ (claim v))));
          ("since", Some (JNum (since (claim v))));
          ("stale", Some (JBool (stale v)))].

Definition lock_json (l : Lock) : json :=
  object [("resourcePath", Some (JStr (resourcePath l)));
          ("lockedBy", Some (JStr (lockedBy l)));
          ("resourceType", Some (JStr (resourceType l)));
          ("reason", str (reason l));
          ("acquiredAt", Some (JNum (acquiredAt l)))].

Definition task_input_props (i : TaskInput) : list (string * value) :=
  [("title", Some (JStr (title i)));
   ("description", str (description i));
   ("priority", Some (JStr (priority i)));
   ("status", Some (JStr (status i)));
   ("createdBy", Some (JStr (createdBy i)));
   ("assignee", str (assignee i));
   ("tags", Some (JArr (JStr <$> tags i)))].

Definition task_json (t : Task) : json :=
  object (("id", Some (JStr (id t))) :: (task_input_props (input t)
          ++ [("createdAt", Some (JNum (createdAt t)))])%list).

(** ** The remote backend as the handlers see it *)

Inductive http_method := GET | POST | DELETE.

(** A request to [`${API_BASE}${path}?${query}`]; the query holds the values
    before [encodeURIComponent]. *)
Record request := {
  method : http_method;
  path : string;
  query : list (string * string);
  body : option json
}.

(** What [await fetch(...)] yields: the promise rejects (network error), or a
    response arrives.  [json_body = None] when [res.json()] rejects because
    the body is not a JSON document. *)
Record response := {
  res_status : Z;
  json_body : option json
}.

Inductive fetch_outcome :=
| NetworkError
| Responded (res : response).

(** ** Handler computations

    A handler runs against the remote backend (of some state type [R], reached
    through [fetch]) and the local store.  It completes with a value or throws,
    and leaves a trace of the backend calls it made. *)

Inductive store_call :=
| CheckClaim (w : string)
| StoreClaim (w b : string)
| ReleaseClaim (w b : string)
| ListClaims (includeStale : option bool)
| AcquireLock (p b : string)
| CreateTask (i : TaskInput).

Inductive event :=
| EFetch (req : request)
| EStore (call : store_call).

Record world (R : Type) := {
  remote : R;
  local : Store
}.
Arguments remote {R} w.
Arguments local {R} w.

Definition M (R A : Type) : Type :=
  world R -> outcome A * world R * list event.

Definition ret {R A} (a : A) : M R A := fun w => (Ok a, w, []).

Definition throw {R A} : M R A := fun w => (Throw, w, []).

Definition bind {R A B} (m : M R A) (k : A -> M R B) : M R B :=
  fun w =>
    match m w with
    | (Ok a, w1, t1) => let '(r, w2, t2) := k a w1 in (r, w2, (t1 ++ t2)%list)
    | (Throw, w1, t1) => (Throw, w1, t1)
    end.

(** [try { m } catch (err) { h }] *)
Definition try_catch {R A} (m : M R A) (h : M R A) : M R A :=
  fun w =>
    match m w with
    | (Ok a, w1, t1) => (Ok a, w1, t1)
    | (Throw, w1, t1) => let '(r, w2, t2) := h w1 in (r, w2, (t1 ++ t2)%list)
    end.

Definition lift {R A} (o : outcome A) : M R A := fun w => (o, w, []).

Notation "'let*' x ':=' m 'in' k" := (bind m (fun x => k))
  (at level 10, x name, m at level 100, k at level 200).

(** What a tool call hands back: [{ content: [{ type: 'text', text }] }], the
    text being a plain message or [JSON.stringify] of a value. *)
Inductive tool_result :=
| Text (text : string)
| TextJson (v : json).

Section Handlers.

Context {R : Type}.

(** The network and whatever answers behind it. *)
Variable fetch_impl : request -> R -> fetch_outcome * R.

(** [Date.now()] at the time of the call. *)
Variable now : Z.

(** [await fetch(url, init)] *)
Definition fetch (req : request) : M R response :=
  fun w =>
    let '(o, r) := fetch_impl req (remote w) in
    let w' := {| remote := r; local := local w |} in
    match o with
    | NetworkError => (Throw, w', [EFetch req])
    | Responded res => (Ok res, w', [EFetch req])
    end.

(** [await res.json()] *)
Definition res_json (res : response) : M R json :=
  lift (match json_body res with Some data => Ok data | None => Throw end).

(** A call of a method of the local [store]. *)
Definition store_op {A} (call : store_call) (f : Store -> A * Store) : M R A :=
  fun w =>
    let '(a, st) := f (local w) in
    (Ok a, {| remote := remote w; local := st |}, [EStore call]).

(** [existing && existing.by !== agentId && !existing.stale] *)
Definition held_by_other (existing : option ClaimView) (agentId : string) : bool :=
  match existing with
  | Some e => negb (String.eqb (by_ (claim e)) agentId) && negb (stale e)
  | None => false
  end.

(** The request of the [try] block of [new_claim]. *)
Definition claim_request (agentId args_what args_description : option string)
    : request :=
  {| method := POST; path := "/api/claims"; query := [];
     body := Some (object [("what", str args_what);
                           ("by", str agentId);
                           ("description", str args_description)]) |}.

(** The [try] block of [new_claim]: ask the remote backend. *)
Definition claim_remote (agentId args_what args_description : option string)
    : M R tool_result :=
  let* res := fetch (claim_request agentId args_what args_description) in
  let* data := res_json res in
  if res_status res =? 409
  then
    let* claimedBy := lift (prop data "claimedBy") in
    let* message := lift (prop data "message") in
    ret (TextJson (object [("claimed", Some (JBool false));
                           ("by", claimedBy);
                           ("message", message)]))
  else
    ret (TextJson (object [("claimed", Some (JBool true));
                           ("what", str args_what);
                           ("by", str agentId)])).

(** The [catch] block of [new_claim]: fall back to the local store. *)
Definition claim_local (agentId args_what : string) (args_description : option string)
    : M R tool_result :=
  let* existing := store_op (CheckClaim args_what)
                     (fun st => (checkClaim st now args_what, st)) in
  if held_by_other existing agentId
  then
    ret (TextJson (object [("claimed", Some (JBool false));
                           ("by", (JStr ∘ by_ ∘ claim) <$> existing);
                           ("since", (JNum ∘ since ∘ claim) <$> existing)]))
  else
    let* c := store_op (StoreClaim args_what agentId)
                (fun st => store_claim st now args_what agentId args_description) in
    ret (TextJson (object [("claimed", Some (JBool true));
                           ("what", Some (JStr (what c)));
                           ("by", Some (JStr (by_ c)))])).

(** [case 'claim'] of [new_claim]. *)
Definition claim_handler (agentId args_what args_description : option string)
    : M R tool_result :=
  if negb (truthy agentId) || negb (truthy args_what)
  then ret (Text "agentId and what required")
  else
    try_catch
      (claim_remote agentId args_what args_description)
      (claim_local (default "" agentId) (default "" args_what) args_description).

(** [case 'list-claims'] of [new_list_claims]. *)
Definition list_claims_handler (args_includeStale : option bool) : M R tool_result :=
  try_catch
    (let* res := fetch {| method := GET; path := "/api/claims"; query := [];
                          body := None |} in
     let* data := res_json res in
     ret (TextJson data))
    (let* cs := store_op (ListClaims args_includeStale)
                  (fun st => (listClaims st now args_includeStale, st)) in
     ret (TextJson (object [("claims", Some (JArr (claim_json <$> cs)));
                            ("count", Some (JNum (Z.of_nat (length cs))))]))).

(** [case 'release'] of [new_release]. *)
Definition release_handler (agentId args_what : option string) : M R tool_result :=
  if negb (truthy agentId) || negb (truthy args_what)
  then ret (Text "agentId and what required")
  else
    let a := default "" agentId in
    let w := default "" args_what in
    try_catch
      (let* res := fetch {| method := DELETE; path := "/api/claims";
                            query := [("what", w); ("by", a)]; body := None |} in
       let* data := res_json res in
       ret (TextJson (object [("released", Some (JBool true));
                              ("what", str args_what);
                              ("by", str agentId)])))
      (let* released := store_op (ReleaseClaim w a) (fun st => releaseClaim st w a) in
       ret (TextJson (object [("released", Some (JBool released));
                              ("what", str args_what);
                              ("by", str agentId)]))).

(** [case 'lock'] of [new_lock]. *)
Definition lock_handler (resourcePath agentId : string)
    (args_resourceType args_reason : option string) : M R tool_result :=
  try_catch
    (let* res := fetch {| method := POST; path := "/api/locks"; query := [];
                          body := Some (object [("resourcePath", Some (JStr resourcePath));
                                                ("lockedBy", Some (JStr agentId));
                                                ("reason", str args_reason)]) |} in
     let* data := res_json res in
     let* lock := lift (prop data "lock") in
     ret (TextJson (object [("success", Some (JBool true)); ("lock", lock)])))
    (let* result := store_op (AcquireLock resourcePath agentId)
                      (fun st => acquireLock st now resourcePath agentId
                                   (or_else args_resourceType "file-lock") args_reason) in
     match result with
     | LockHeld holder =>
         ret (TextJson (object [("success", Some (JBool false));
                                ("error", Some (JStr (held_error holder)))]))
     | Acquired l =>
         ret (TextJson (object [("success", Some (JBool true));
                                ("lock", Some (lock_json l))]))
     end).

(** [case 'create'] of [new_task_create]. *)
Definition task_create_handler
    (args_title args_description args_priority args_createdBy args_assignee : option string)
    (args_tags : option (list string)) : M R tool_result :=
  if negb (truthy args_title) || negb (truthy args_createdBy)
  then ret (Text "title and createdBy required")
  else
    let i := {| title := default "" args_title;
                description := args_description;
                priority := or_else args_priority "medium";
                status := "todo";
                createdBy := default "" args_createdBy;
                assignee := args_assignee;
                tags := default [] args_tags |} in
    try_catch
      (let* res := fetch {| method := POST; path := "/api/tasks"; query := [];
                            body := Some (object (task_input_props i)) |} in
       let* data := res_json res in
       let* task := lift (prop data "task") in
       ret (TextJson (object [("created", Some (JBool true)); ("task", task)])))
      (let* task := store_op (CreateTask i) (fun st => createTask st now i) in
       ret (TextJson (object [("created", Some (JBool true));
                              ("task", Some (task_json task))]))).

End Handlers.

(** ** The remote backend *)

Record RemoteBackend := {
  reachable : bool;
  registry : Store
}.

Definition json_string (v : value) : option string :=
  match v with
  | Some (JStr s) => Some s
  | _ => None
  end.

Fixpoint param (k : string) (q : list (string * string)) : option string :=
  match q with
  | [] => None
  | (k', v) :: rest => if String.eqb k k' then Some v else param k rest
  end.

Definition reply (code : Z) (j : json) : response :=
  {| res_status := code; json_body := Some j |}.

Definition bad_request : response :=
  reply 400 (object [("error", Some (JStr "missing required field"))]).

(** Modelled from the spec: the text of a 409 on a claim; the spec only lists
    the [message] property. *)
Definition conflict_message (w owner : string) : string :=
  w +:+ " is already claimed by " +:+ owner.

(** Modelled from the spec: the claim and lock routes of the HTTP surface
    (section 6), served from a registry with the semantics of section 4; the
    backend's code is not among the patch scripts.
    [POST /api/claims {what, by, description?}] answers
    [201 {claimed:true, what, by}] or [409 {claimed:false, claimedBy, message}];
    [GET /api/claims?includeStale=bool] answers [200 {claims, count}];
    [DELETE /api/claims?what=&by=] answers [200 {released}];
    [POST /api/locks {resourcePath, lockedBy, resourceType?, reason?}] answers
    [201 {lock}] or [409 {error}]. *)
Definition api (now : Z) (req : request) (st : Store) : response * Store :=
  let data := default JNull (body req) in
  if String.eqb (path req) "/api/claims" then
    match method req with
    | POST =>
        match json_string (field "what" data), json_string (field "by" data) with
        | Some w, Some b =>
            let existing := checkClaim st now w in
            match existing with
            | Some e =>
                if negb (String.eqb (by_ (claim e)) b) && negb (stale e)
                then (reply 409 (object [("claimed", Some (JBool false));
                                         ("claimedBy", Some (JStr (by_ (claim e))));
                                         ("message", Some (JStr (conflict_message w (by_ (claim e)))))]),
                      st)
                else
                  let '(c, st') := store_claim st now w b (json_string (field "description" data)) in
                  (reply 201 (object [("claimed", Some (JBool true));
                                      ("what", Some (JStr (what c)));
                                      ("by", Some (JStr (by_ c)))]), st')
            | None =>
                let '(c, st') := store_claim st now w b (json_string (field "description" data)) in
                (reply 201 (object [("claimed", Some (JBool true));
                                    ("what", Some (JStr (what c)));
                                    ("by", Some (JStr (by_ c)))]), st')
            end
        | _, _ => (bad_request, st)
        end
    | GET =>
        let includeStale :=
          match param "includeStale" (query req) with
          | Some v => Some (String.eqb v "true")
          | None => None
          end in
        let cs := listClaims st now includeStale in
        (reply 200 (object [("claims", Some (JArr (claim_json <$> cs)));
                            ("count", Some (JNum (Z.of_nat (length cs))))]), st)
    | DELETE =>
        match param "what" (query req), param "by" (query req) with
        | Some w, Some b =>
            let '(released, st') := releaseClaim st w b in
            (reply 200 (object [("released", Some (JBool released))]), st')
        | _, _ => (bad_request, st)
        end
    end
  else if String.eqb (path req) "/api/locks" then
    match method req with
    | POST =>
        match json_string (field "resourcePath" data), json_string (field "lockedBy" data) with
        | Some p, Some b =>
            match acquireLock st now p b
                    (or_else (json_string (field "resourceType" data)) "file-lock")
                    (json_string (field "reason" data)) with
            | (LockHeld holder, st') =>
                (reply 409 (object [("error", Some (JStr (held_error holder)))]), st')
            | (Acquired l, st') =>
                (reply 201 (object [("lock", Some (lock_json l))]), st')
            end
        | _, _ => (bad_request, st)
        end
    | _ => (reply 405 (object [("error", Some (JStr "method not allowed"))]), st)
    end
  else (reply 404 (object [("error", Some (JStr "not found"))]), st).

(** The remote backend behind the network: [fetch] rejects while it is
    unreachable. *)
Definition remote_fetch (now : Z) (req : request) (r : RemoteBackend)
    : fetch_outcome * RemoteBackend :=
  if reachable r
  then
    let '(res, st) := api now req (registry r) in
    (Responded res, {| reachable := true; registry := st |})
  else (NetworkError, r).

(** ** The agent's poll loop and its dedup window *)

Module Agent.

Record Message := {
  id : string;
  author : string;
  message : string;
  authorType : string;
  timestamp : string
}.

(** A [Set<string>]: its elements in insertion order, each once. *)
Abbreviation IdSet := (list string).

Definition has (x : string) (s : IdSet) : bool := bool_decide (x ∈ s).

(** [s.add(x)]: a new element goes last, a present one keeps its place. *)
Definition add (x : string) (s : IdSet) : IdSet :=
  if has x s then s else (s ++ [x])%list.

(** [s.delete(x)] *)
Definition delete (x : string) (s : IdSet) : IdSet :=
  filter (λ y, y ≠ x) s.

Definition size (s : IdSet) : nat := length s.

(** [xs.forEach(x => s.add(x))] and [xs.forEach(x => s.delete(x))] *)
Definition add_all (xs : list string) (s : IdSet) : IdSet :=
  foldl (λ acc x, add x acc) s xs.

Definition delete_all (xs : list string) (s : IdSet) : IdSet :=
  foldl (λ acc x, delete x acc) s xs.

(** The module-level variables of the agent. *)
Record state := {
  lastProcessedTimestamp : option string;
  processedMessageIds : IdSet
}.

(** [let lastProcessedTimestamp = null; const processedMessageIds = new Set()] *)
Definition initial : state :=
  {| lastProcessedTimestamp := None; processedMessageIds := [] |}.

(** What the context manager is given of a message. *)
Record ContextEntry := {
  entry_author : string;
  entry_message : string;
  entry_authorType : string
}.

Definition entry (m : Message) : ContextEntry :=
  {| entry_author := author m; entry_message := message m;
     entry_authorType := authorType m |}.

Inductive effect :=
| LogFound (n : nat)
| LogSkipping (n : nat)
| MarkProcessed (x : string)
| Forget (x : string)
| ProcessMessages (entries : list ContextEntry)
| CheckForRenameCommand (ms : list Message)
| ShouldRespond (ms : list Message).

(** The effects that hand messages to the context and response pipeline. *)
Definition pipeline (e : effect) : bool :=
  match e with
  | ProcessMessages _ | CheckForRenameCommand _ | ShouldRespond _ => true
  | _ => false
  end.

(** The messages an effect hands to the response pipeline. *)
Definition forwarded (e : effect) : list Message :=
  match e with
  | CheckForRenameCommand ms | ShouldRespond ms => ms
  | _ => []
  end.

(** [newMessages.filter(m => !processedMessageIds.has(m.id))] *)
Definition unprocessed (s : IdSet) (newMessages : list Message) : list Message :=
  filter (λ m, has (id m) s = false) newMessages.

(** The [size > 100] block: forget the first [size - 100] elements. *)
Definition trim (s : IdSet) : IdSet :=
  if decide (100 < size s)%nat
  then delete_all (take (size s - 100) s) s
  else s.

Definition trim_effects (s : IdSet) : list effect :=
  if decide (100 < size s)%nat
  then Forget <$> take (size s - 100) s
  else [].

(** One pass through the body of [new_processing], up to the question whether
    to respond: the new state and the effects in program order. *)
Definition process (st : state) (newMessages : list Message) : state * list effect :=
  if decide (0 < length newMessages)%nat then
    let unprocessedMessages := unprocessed (processedMessageIds st) newMessages in
    let ts := timestamp <$> last newMessages in
    if decide (length unprocessedMessages = 0%nat) then
      ({| lastProcessedTimestamp := ts;
          processedMessageIds := processedMessageIds st |},
       [LogFound (length newMessages); LogSkipping (length newMessages)])
    else
      let marked := add_all (id <$> unprocessedMessages) (processedMessageIds st) in
      ({| lastProcessedTimestamp := ts; processedMessageIds := trim marked |},
       [LogFound (length newMessages)]
         ++ (MarkProcessed ∘ id <$> unprocessedMessages)
         ++ trim_effects marked
         ++ [ProcessMessages (entry <$> unprocessedMessages);
             CheckForRenameCommand unprocessedMessages;
             ShouldRespond unprocessedMessages])%list
  else (st, []).

(** The window is a set of at most 100 ids. *)
Definition window_ok (st : state) : Prop :=
  (size (processedMessageIds st) ≤ 100)%nat ∧ NoDup (processedMessageIds st).

(** The poll loop over the batches it fetches. *)
Definition run (batches : list (list Message)) (st : state) : state :=
  foldl (λ s b, (process s b).1) st batches.

End Agent.

(** ** Vocabulary of the statements *)

(** The remote call of a claim failed: [fetch] rejected, the body was not a JSON
    document, or it was a 409 whose body is [null] (reading [data.claimedBy]
    throws).  These are the ways into the [catch] block of [new_claim]. *)
Definition failed_claim_call (o : fetch_outcome) : bool :=
  match o with
  | NetworkError => true
  | Responded res =>
      match json_body res with
      | None => true
      | Some JNull => res_status res =? 409
      | Some _ => false
      end
  end.

(** The remote call of a handler that reads no property of the body before it
    answers failed: [fetch] rejected or the body was not a JSON document. *)
Definition failed_call (o : fetch_outcome) : bool :=
  match o with
  | NetworkError => true
  | Responded res => bool_decide (json_body res = None)
  end.


(** The property [k] of the JSON text a handler answered with. *)
Definition answer (k : string) (r : outcome tool_result) : value :=
  match r with
  | Ok (TextJson v) => field k v
  | _ => None
  end.

(** The trace of a computation that follows the request [req]. *)
Definition after_fetch {R A} (req : request) (x : outcome A * world R * list event)
    : outcome A * world R * list event :=
  let '(r, w, t) := x in (r, w, EFetch req :: t).

(** Every claim of the store is filed under its own [what]. *)
Definition keyed (st : Store) : Prop :=
  ∀ k c, claims st !! k = Some c → what c = k.



(** [b] holds a claim on [w] that is not stale. *)
Definition holds_fresh (st : Store) (now : Z) (w b : string) : Prop :=
  ∃ c, claims st !! w = Some c ∧ by_ c = b ∧ is_stale st now c = false.

(** The result of a claim reports a conflict with the owner of [c], and with
    the time of [c] when [with_time] is set. *)
Definition reports_conflict (with_time : bool) (c : Claim) (r : outcome tool_result)
    : Prop :=
  ∃ v, r = Ok (TextJson v)
       ∧ field "claimed" v = Some (JBool false)
       ∧ field "by" v = Some (JStr (by_ c))
       ∧ (with_time = true → field "since" v = Some (JNum (since c))).

(** ** Sample states *)

Definition half_hour : Z := 1800000.

Definition empty_store : Store :=
  {| staleThreshold := half_hour; claims := ∅; locks := ∅; tasks := [];
     taskCounter := 0 |}.

Definition claim_A_by_X : Claim :=
  {| what := "module-A"; by_ := "X"; since := 0 |}.

Definition store_A_by_X : Store :=
  with_claims empty_store {[ "module-A" := claim_A_by_X ]}.

Definition lock_index_by_X : Lock :=
  {| resourcePath := "src/index.ts"; lockedBy := "X";
     resourceType := "file-lock"; reason := None; acquiredAt := 0 |}.

Definition store_index_locked : Store :=
  with_locks empty_store {[ "src/index.ts" := lock_index_by_X ]}.

Definition online (st : Store) : RemoteBackend :=
  {| reachable := true; registry := st |}.

Definition offline (st : Store) : RemoteBackend :=
  {| reachable := false; registry := st |}.

Definition numbered (n : nat) : Agent.Message :=
  {| Agent.id := pretty n; Agent.author := "user"; Agent.message := "hello";
     Agent.authorType := "human"; Agent.timestamp := pretty n |}.

Definition first_hundred : list Agent.Message := numbered <$> seq 0 100.

(** ** The handlers before the patch *)

Section OldHandlers.

Context {R : Type}.

Variable now : Z.

(** [case 'claim'] of [old_claim]. *)
Definition old_claim_handler (agentId args_what args_description : option string)
    : M R tool_result :=
  if negb (truthy agentId) || negb (truthy args_what)
  then ret (Text "agentId and what required")
  else
    let a := default "" agentId in
    let w := default "" args_what in
    let* existing := store_op (CheckClaim w) (fun st => (checkClaim st now w, st)) in
    if held_by_other existing a
    then
      ret (TextJson (object [("claimed", Some (JBool false));
                             ("by", (JStr ∘ by_ ∘ claim) <$> existing);
                             ("since", (JNum ∘ since ∘ claim) <$> existing)]))
    else
      let* c := store_op (StoreClaim w a)
                  (fun st => store_claim st now w a args_description) in
      ret (TextJson (object [("claimed", Some (JBool true));
                             ("what", Some (JStr (what c)));
                             ("by", Some (JStr (by_ c)))])).

(** [case 'list-claims'] of [old_list_claims]. *)
Definition old_list_claims_handler (args_includeStale : option bool) : M R tool_result :=
  let* cs := store_op (ListClaims args_includeStale)
               (fun st => (listClaims st now args_includeStale, st)) in
  ret (TextJson (object [("claims", Some (JArr (claim_json <$> cs)));
                         ("count", Some (JNum (Z.of_nat (length cs))))])).

(** [case 'release'] of [old_release]. *)
Definition old_release_handler (agentId args_what : option string) : M R tool_result :=
  if negb (truthy agentId) || negb (truthy args_what)
  then ret (Text "agentId and what required")
  else
    let a := default "" agentId in
    let w := default "" args_what in
    let* released := store_op (ReleaseClaim w a) (fun st => releaseClaim st w a) in
    ret (TextJson (object [("released", Some (JBool released));
                           ("what", str args_what);
                           ("by", str agentId)])).

(** [case 'lock'] of [old_lock]. *)
Definition old_lock_handler (resourcePath agentId : string)
    (args_resourceType args_reason : option string) : M R tool_result :=
  let* result := store_op (AcquireLock resourcePath agentId)
                   (fun st => acquireLock st now resourcePath agentId
                                (or_else args_resourceType "file-lock") args_reason) in
  match result with
  | LockHeld holder =>
      ret (TextJson (object [("success", Some (JBool false));
                             ("error", Some (JStr (held_error holder)))]))
  | Acquired l =>
      ret (TextJson (object [("success", Some (JBool true));
                             ("lock", Some (lock_json l))]))
  end.

(** [case 'create'] of [old_task_create]. *)
Definition old_task_create_handler
    (args_title args_description args_priority args_createdBy args_assignee : option string)
    (args_tags : option (list string)) : M R tool_result :=
  if negb (truthy args_title) || negb (truthy args_createdBy)
  then ret (Text "title and createdBy required")
  else
    let* task := store_op (CreateTask {| title := default "" args_title;
                                         description := args_description;
                                         priority := or_else args_priority "medium";
                                         status := "todo";
                                         createdBy := default "" args_createdBy;
                                         assignee := args_assignee;
                                         tags := default [] args_tags |})
                   (fun st => createTask st now
                                {| title := default "" args_title;
                                   description := args_description;
                                   priority := or_else args_priority "medium";
                                   status := "todo";
                                   createdBy := default "" args_createdBy;
                                   assignee := args_assignee;
                                   tags := default [] args_tags |}) in
    ret (TextJson (object [("created", Some (JBool true));
                           ("task", Some (task_json task))])).

End OldHandlers.

(** ** Unlocking and listing tasks

    These two handlers call store methods of their own, so their traces carry
    two more kinds of store call. *)

(** Modelled from the spec: [store.releaseLock(resourcePath, by)], missing from
    the patch scripts.  "Same no-op if not owner policy as claims." *)
Definition releaseLock (st : Store) (p b : string) : bool * Store :=
  match locks st !! p with
  | Some l =>
      if bool_decide (lockedBy l = b)
      then (true, with_locks st (delete p (locks st)))
      else (false, st)
  | None => (false, st)
  end.

(** Modelled from the spec: [store.listTasks(status)], missing from the patch
    scripts.  "Optional exact-match filter by status." *)
Definition listTasks (st : Store) (args_status : option string) : list Task :=
  match args_status with
  | Some s => filter (λ t, status (input t) = s) (tasks st)
  | None => tasks st
  end.

Inductive more_store_call :=
| ReleaseLock (p b : string)
| ListTasks (args_status : option string).

Inductive more_event :=
| Earlier (e : event)
| EMore (call : more_store_call).

Definition M' (R A : Type) : Type :=
  world R -> outcome A * world R * list more_event.

Definition ret' {R A} (a : A) : M' R A := fun w => (Ok a, w, []).

Definition bind' {R A B} (m : M' R A) (k : A -> M' R B) : M' R B :=
  fun w =>
    match m w with
    | (Ok a, w1, t1) => let '(r, w2, t2) := k a w1 in (r, w2, (t1 ++ t2)%list)
    | (Throw, w1, t1) => (Throw, w1, t1)
    end.

Definition try_catch' {R A} (m : M' R A) (h : M' R A) : M' R A :=
  fun w =>
    match m w with
    | (Ok a, w1, t1) => (Ok a, w1, t1)
    | (Throw, w1, t1) => let '(r, w2, t2) := h w1 in (r, w2, (t1 ++ t2)%list)
    end.

(** A computation of the handlers above, with its trace carried over. *)
Definition earlier {R A} (m : M R A) : M' R A :=
  fun w => let '(r, w1, t) := m w in (r, w1, Earlier <$> t).

Definition more_store_op {R A} (call : more_store_call) (f : Store -> A * Store)
    : M' R A :=
  fun w =>
    let '(a, st) := f (local w) in
    (Ok a, {| remote := remote w; local := st |}, [EMore call]).

Section MoreHandlers.

Context {R : Type}.

Variable fetch_impl : request -> R -> fetch_outcome * R.

(** The request of [new_unlock]: the path alone, without the caller. *)
Definition unlock_request (resourcePath : string) : request :=
  {| method := DELETE; path := "/api/locks";
     query := [("resourcePath", resourcePath)]; body := None |}.

(** [case 'unlock'] of [new_unlock]. *)
Definition unlock_handler (resourcePath agentId : string) : M' R tool_result :=
  try_catch'
    (bind' (earlier (fetch fetch_impl (unlock_request resourcePath)))
       (fun res =>
          ret' (TextJson (object [("released", Some (JBool true));
                                  ("resourcePath", Some (JStr resourcePath))]))))
    (bind' (more_store_op (ReleaseLock resourcePath agentId)
              (fun st => releaseLock st resourcePath agentId))
       (fun released =>
          ret' (TextJson (object [("released", Some (JBool released));
                                  ("resourcePath", Some (JStr resourcePath))])))).

(** [case 'unlock'] of [old_unlock]. *)
Definition old_unlock_handler (resourcePath agentId : string) : M' R tool_result :=
  bind' (more_store_op (ReleaseLock resourcePath agentId)
           (fun st => releaseLock st resourcePath agentId))
    (fun released =>
       ret' (TextJson (object [("released", Some (JBool released));
                               ("resourcePath", Some (JStr resourcePath))]))).

(** The URL of [new_task_list], after [API_BASE]: the status is spliced in as
    it is when it is truthy. *)
Definition task_list_request (args_status : option string) : request :=
  {| method := GET;
     path := if truthy args_status
             then "/api/tasks?status=" +:+ default "" args_status
             else "/api/tasks";
     query := []; body := None |}.

Definition tasks_answer (ts : list Task) : tool_result :=
  TextJson (object [("tasks", Some (JArr (task_json <$> ts)));
                    ("count", Some (JNum (Z.of_nat (length ts))))]).

(** [case 'list'] of [new_task_list]. *)
Definition task_list_handler (args_status : option string) : M' R tool_result :=
  try_catch'
    (bind' (earlier (fetch fetch_impl (task_list_request args_status)))
       (fun res =>
          bind' (earlier (res_json res))
            (fun data => ret' (TextJson data))))
    (bind' (more_store_op (ListTasks args_status)
              (fun st => (listTasks st args_status, st)))
       (fun ts => ret' (tasks_answer ts))).

(** [case 'list'] of [old_task_list]. *)
Definition old_task_list_handler (args_status : option string) : M' R tool_result :=
  bind' (more_store_op (ListTasks args_status)
           (fun st => (listTasks st args_status, st)))
    (fun ts => ret' (tasks_answer ts)).

End MoreHandlers.

(** The remote call failed for a handler that reads a property of the body:
    [fetch] rejected, the body was not a JSON document, or it was [null]. *)
Definition unreadable (o : fetch_outcome) : bool :=
  match o with
  | NetworkError => true
  | Responded res =>
      match json_body res with
      | None | Some JNull => true
      | Some _ => false
      end
  end.

(** The trace of a computation of [M'] that follows the request [req]. *)
Definition after_fetch' {R A} (req : request)
    (x : outcome A * world R * list more_event)
    : outcome A * world R * list more_event :=
  let '(r, w, t) := x in (r, w, Earlier (EFetch req) :: t).

(** ** The poll loop before the patch *)

(** One pass through the body of [old_processing]: every fetched message goes
    on, and no id is remembered. *)
Definition old_process (st : Agent.state) (newMessages : list Agent.Message)
    : Agent.state * list Agent.effect :=
  if decide (0 < length newMessages)%nat then
    ({| Agent.lastProcessedTimestamp := Agent.timestamp <$> last newMessages;
        Agent.processedMessageIds := Agent.processedMessageIds st |},
     [Agent.LogFound (length newMessages);
      Agent.ProcessMessages (Agent.entry <$> newMessages);
      Agent.CheckForRenameCommand newMessages;
      Agent.ShouldRespond newMessages])
  else (st, []).

(** The pipeline calls among the effects of a pass. *)
Definition pipeline_calls (effects : list Agent.effect) : list Agent.effect :=
  filter (λ e, Agent.pipeline e = true) effects.

(** The three pipeline calls a pass makes on the messages it lets through. *)
Definition calls_on (ms : list Agent.Message) : list Agent.effect :=
  match ms with
  | [] => []
  | _ => [Agent.ProcessMessages (Agent.entry <$> ms);
          Agent.CheckForRenameCommand ms;
          Agent.ShouldRespond ms]
  end.

(** ** More sample states *)

(** A backend that answers every request with a 500 and an error body. *)
Definition broken_backend (req : request) (r : unit) : fetch_outcome * unit :=
  (Responded {| res_status := 500;
                json_body := Some (JObj [("error", JStr "internal error")]) |}, r).

(** A backend whose answers are not JSON. *)
Definition garbled_backend (req : request) (r : unit) : fetch_outcome * unit :=
  (Responded {| res_status := 200; json_body := None |}, r).

Definition hundred_and_one : list Agent.Message := numbered <$> seq 0 101.



(** ** The patch scripts

    Both scripts read a TypeScript file, replace fixed fragments and write the
    file back.  A text is the [string] of its bytes. *)

Module Patch.

(** [old in content] *)
Fixpoint occurs (old content : string) : bool :=
  String.prefix old content
  || match content with
     | EmptyString => false
     | String _ rest => occurs old rest
     end.

(** [content.replace(old, new)] for a non-empty [old], read from the left:
    where [old] starts, [new] is put out and the rest of that occurrence is
    skipped ([skip] counts what is left of it); elsewhere the character is
    kept. *)
Fixpoint replace_from (skip : nat) (old new content : string) : string :=
  match content with
  | EmptyString => EmptyString
  | String c rest =>
      match skip with
      | S k => replace_from k old new rest
      | O =>
          if String.prefix old content
          then new +:+ replace_from (String.length old - 1) old new rest
          else String c (replace_from 0 old new rest)
      end
  end.

(** [content.replace('', new)]: [new] before every character and at the end. *)
Fixpoint interleave (new content : string) : string :=
  match content with
  | EmptyString => new
  | String c rest => new +:+ String c (interleave new rest)
  end.

Definition replace (old new content : string) : string :=
  match old with
  | EmptyString => interleave new content
  | _ => replace_from 0 old new content
  end.

(** One block of a script, on the text and on what has been printed so far:
    [if old in content: content = content.replace(old, new); print(notice)]. *)
Definition step (old new notice : string) (file : string * list string)
    : string * list string :=
  if occurs old file.1
  then (replace old new file.1, (file.2 ++ [notice])%list)
  else file.

(** [old_imports] of fix_mcp_to_http.py. *)
Definition old_imports : string :=
  "const server = new McpServer({
  name: 'agent-coord-mcp',
  version: '0.1.0'
});".

(** [new_imports] of fix_mcp_to_http.py. *)
Definition new_imports : string :=
  "const API_BASE = process.env.API_BASE || 'https://agent-coord-mcp.vercel.app';

const server = new McpServer({
  name: 'agent-coord-mcp',
  version: '0.1.0'
});".

(** Lines 23 to 25 of fix_mcp_to_http.py. *)
Definition add_api_base : string * list string -> string * list string :=
  step old_imports new_imports "Added API_BASE constant".

(** [old_vars] of fix_bigbrain_duplication.py. *)
Definition old_vars : string :=
  "let lastProcessedTimestamp: string | null = null;
let conversationHistory: Anthropic.MessageParam[] = [];".

(** [new_vars] of fix_bigbrain_duplication.py. *)
Definition new_vars : string :=
  "let lastProcessedTimestamp: string | null = null;
let conversationHistory: Anthropic.MessageParam[] = [];
const processedMessageIds = new Set<string>();  // Track processed messages to prevent duplicates".

(** Lines 19 to 21 of fix_bigbrain_duplication.py. *)
Definition add_processed_ids : string * list string -> string * list string :=
  step old_vars new_vars "Added processedMessageIds Set".

End Patch.

(** * Properties of the handlers *)

Section HandlerFacts.

Context {R : Type} (fetch_impl : request -> R -> fetch_outcome * R) (now : Z).

Implicit Types (w : world R) (agentId args_what args_description : option string).


(** A failed remote call hands the claim to the [catch] block. *)
Lemma claim_handler_fallback agentId args_what args_description w :
  truthy agentId = true → truthy args_what = true →
  let req := claim_request agentId args_what args_description in
  failed_claim_call (fetch_impl req (remote w)).1 = true →
  claim_handler fetch_impl now agentId args_what args_description w
  = after_fetch req
      (claim_local now (default "" agentId) (default "" args_what) args_description
         {| remote := (fetch_impl req (remote w)).2; local := local w |}).
Proof.
  intros Ha Hw req Hf. unfold claim_handler. rewrite Ha, Hw. simpl.
  unfold try_catch, claim_remote, bind, fetch. fold req.
  destruct (fetch_impl req (remote w)) as [[|res] r]; simpl in *.
  - destruct (claim_local _ _ _ _ _) as [[? ?] ?]. reflexivity.
  - unfold res_json, lift.
    destruct (json_body res) as [data|]; simpl.
    + destruct data; try discriminate Hf. rewrite Hf. simpl.
      destruct (claim_local _ _ _ _ _) as [[? ?] ?]. reflexivity.
    + destruct (claim_local _ _ _ _ _) as [[? ?] ?]. reflexivity.
Qed.


(** The [catch] block on a claim held by someone else and not stale. *)
Lemma claim_local_conflict (a wh : string) d w e :
  checkClaim (local w) now wh = Some e →
  by_ (claim e) ≠ a → stale e = false →
  claim_local now a wh d w
  = (Ok (TextJson (object [("claimed", Some (JBool false));
                           ("by", Some (JStr (by_ (claim e))));
                           ("since", Some (JNum (since (claim e))))])),
     w, [EStore (CheckClaim wh)]).
Proof.
  intros He Hne Hs. unfold claim_local, bind, store_op. simpl.
  rewrite He. simpl. rewrite Hs.
  destruct (String.eqb_spec (by_ (claim e)) a) as [|_]; [done|].
  simpl. destruct w. reflexivity.
Qed.


(** The backend's 409 with a JSON object is handed on, and nothing else is
    called. *)
Lemma claim_handler_conflict_answer agentId args_what args_description w res fields :
  truthy agentId = true → truthy args_what = true →
  let req := claim_request agentId args_what args_description in
  (fetch_impl req (remote w)).1 = Responded res →
  res_status res = 409 → json_body res = Some (JObj fields) →
  claim_handler fetch_impl now agentId args_what args_description w
  = (Ok (TextJson (object [("claimed", Some (JBool false));
                           ("by", assoc "claimedBy" fields);
                           ("message", assoc "message" fields)])),
     {| remote := (fetch_impl req (remote w)).2; local := local w |},
     [EFetch req]).
Proof.
  intros Ha Hw req Ho Hs Hb. unfold claim_handler. rewrite Ha, Hw. simpl.
  unfold try_catch, claim_remote, bind, fetch. fold req.
  destruct (fetch_impl req (remote w)) as [o r]. simpl in Ho. subst o. simpl.
  unfold res_json, lift. rewrite Hb, Hs. reflexivity.
Qed.

Lemma truthy_Some (s : string) : s ≠ "" → truthy (Some s) = true.
Proof.
  intros H. simpl. destruct (String.eqb_spec s ""); [done | reflexivity].
Qed.

(** C9 (validation).  A claim without [agentId] or [what], and a task creation
    without [title] or [createdBy], answer with the validation message at once:
    no request is sent, the local store is not called, and both backends are
    as they were. *)
Theorem missing_field_rejected_before_backends
    agentId args_what args_description
    args_title args_priority args_createdBy args_assignee args_tags w :
  (truthy agentId = false ∨ truthy args_what = false →
   claim_handler fetch_impl now agentId args_what args_description w
   = (Ok (Text "agentId and what required"), w, []))
  ∧ (truthy args_title = false ∨ truthy args_createdBy = false →
     task_create_handler fetch_impl now args_title args_description args_priority
       args_createdBy args_assignee args_tags w
     = (Ok (Text "title and createdBy required"), w, [])).
Proof.
  split; intros [H | H].
  - unfold claim_handler. rewrite H. reflexivity.
  - unfold claim_handler. rewrite H. destruct (truthy agentId); reflexivity.
  - unfold task_create_handler. rewrite H. reflexivity.
  - unfold task_create_handler. rewrite H. destruct (truthy args_title); reflexivity.
Qed.

(** A 409 whose body can be read is handed on, and nothing else is called. *)
Lemma claim_handler_conflict_readable agentId args_what args_description w res data :
  truthy agentId = true → truthy args_what = true →
  let req := claim_request agentId args_what args_description in
  (fetch_impl req (remote w)).1 = Responded res →
  res_status res = 409 → json_body res = Some data → data ≠ JNull →
  claim_handler fetch_impl now agentId args_what args_description w
  = (Ok (TextJson (object [("claimed", Some (JBool false));
                           ("by", field "claimedBy" data);
                           ("message", field "message" data)])),
     {| remote := (fetch_impl req (remote w)).2; local := local w |},
     [EFetch req]).
Proof.
  intros Ha Hw req Ho Hs Hb Hn. unfold claim_handler. rewrite Ha, Hw. simpl.
  unfold try_catch, claim_remote, bind, fetch. fold req.
  destruct (fetch_impl req (remote w)) as [o r]. simpl in Ho. subst o. simpl.
  unfold res_json, lift. rewrite Hb, Hs. destruct data; try done.
Qed.






(** ** What the other handlers make of the backend's answer *)

(** [new_release] never reads the answer: any JSON body gives
    [{released: true}]. *)
Lemma release_handler_answered agentId args_what w res data :
  truthy agentId = true → truthy args_what = true →
  let req := {| method := DELETE; path := "/api/claims";
                query := [("what", default "" args_what); ("by", default "" agentId)];
                body := None |} in
  (fetch_impl req (remote w)).1 = Responded res →
  json_body res = Some data →
  release_handler fetch_impl agentId args_what w
  = (Ok (TextJson (object [("released", Some (JBool true));
                           ("what", str args_what);
                           ("by", str agentId)])),
     {| remote := (fetch_impl req (remote w)).2; local := local w |},
     [EFetch req]).
Proof.
  intros Ha Hw req Ho Hb. unfold release_handler. rewrite Ha, Hw. simpl.
  unfold try_catch, bind, fetch. fold req.
  destruct (fetch_impl req (remote w)) as [o r]. simpl in Ho. subst o. simpl.
  unfold res_json, lift. rewrite Hb. reflexivity.
Qed.

(** On the local store [new_release] reports what [store.releaseClaim]
    returns. *)
Lemma release_handler_fallback agentId args_what w :
  truthy agentId = true → truthy args_what = true →
  let req := {| method := DELETE; path := "/api/claims";
                query := [("what", default "" args_what); ("by", default "" agentId)];
                body := None |} in
  failed_call (fetch_impl req (remote w)).1 = true →
  let released := releaseClaim (local w) (default "" args_what) (default "" agentId) in
  release_handler fetch_impl agentId args_what w
  = (Ok (TextJson (object [("released", Some (JBool released.1));
                           ("what", str args_what);
                           ("by", str agentId)])),
     {| remote := (fetch_impl req (remote w)).2; local := released.2 |},
     [EFetch req; EStore (ReleaseClaim (default "" args_what) (default "" agentId))]).
Proof.
  intros Ha Hw req Hf released. unfold release_handler. rewrite Ha, Hw. simpl.
  unfold try_catch, bind, fetch, store_op. fold req.
  destruct (fetch_impl req (remote w)) as [[|res] r]; simpl in *.
  - fold released. destruct released. reflexivity.
  - apply bool_decide_eq_true in Hf. unfold res_json, lift. rewrite Hf. simpl.
    fold released. destruct released. reflexivity.
Qed.

(** [new_lock] never reads the status: any JSON object gives
    [{success: true, lock: data.lock}]. *)
Lemma lock_handler_answered (resourcePath agentId : string) args_resourceType args_reason
    w res fields :
  let req := {| method := POST; path := "/api/locks"; query := [];
                body := Some (object [("resourcePath", Some (JStr resourcePath));
                                      ("lockedBy", Some (JStr agentId));
                                      ("reason", str args_reason)]) |} in
  (fetch_impl req (remote w)).1 = Responded res →
  json_body res = Some (JObj fields) →
  lock_handler fetch_impl now resourcePath agentId args_resourceType args_reason w
  = (Ok (TextJson (object [("success", Some (JBool true));
                           ("lock", assoc "lock" fields)])),
     {| remote := (fetch_impl req (remote w)).2; local := local w |},
     [EFetch req]).
Proof.
  intros req Ho Hb. unfold lock_handler, try_catch, bind, fetch. fold req.
  destruct (fetch_impl req (remote w)) as [o r]. simpl in Ho. subst o. simpl.
  unfold res_json, lift. rewrite Hb. reflexivity.
Qed.

(** [new_list_claims] sends the same request whatever [args.includeStale] is,
    and hands on the answer. *)
Lemma list_claims_handler_answered args_includeStale w res data :
  let req := {| method := GET; path := "/api/claims"; query := []; body := None |} in
  (fetch_impl req (remote w)).1 = Responded res →
  json_body res = Some data →
  list_claims_handler fetch_impl now args_includeStale w
  = (Ok (TextJson data),
     {| remote := (fetch_impl req (remote w)).2; local := local w |},
     [EFetch req]).
Proof.
  intros req Ho Hb. unfold list_claims_handler, try_catch, bind, fetch. fold req.
  destruct (fetch_impl req (remote w)) as [o r]. simpl in Ho. subst o. simpl.
  unfold res_json, lift. rewrite Hb. reflexivity.
Qed.

(** [store.releaseClaim] by someone who does not hold the claim. *)
Lemma releaseClaim_not_owner st (wh b : string) c :
  claims st !! wh = Some c → by_ c ≠ b → releaseClaim st wh b = (false, st).
Proof.
  intros Hc Hb. unfold releaseClaim. rewrite Hc.
  by rewrite bool_decide_eq_false_2.
Qed.

(** [store.releaseClaim] by the holder. *)
Lemma releaseClaim_owner st (wh b : string) c :
  claims st !! wh = Some c → by_ c = b →
  releaseClaim st wh b = (true, with_claims st (base.delete wh (claims st))).
Proof.
  intros Hc Hb. unfold releaseClaim. rewrite Hc.
  by rewrite bool_decide_eq_true_2.
Qed.

End HandlerFacts.

(** [store.claim] keeps every claim filed under its own [what]. *)
Lemma store_claim_keyed st now (wh a : string) d :
  keyed st → keyed (store_claim st now wh a d).2.
Proof.
  intros Hk. unfold store_claim.
  destruct (claims st !! wh) as [c|];
    [destruct (bool_decide (by_ c = a)); [exact Hk|]|];
    intros k c' Hc'; simpl in Hc';
    (destruct (decide (wh = k)) as [<-|Hne];
      [rewrite lookup_insert_eq in Hc'; by injection Hc' as <-
      |rewrite lookup_insert_ne in Hc' by done; by apply Hk]).
Qed.

(** Served by the backend of the spec: the holder's claim stands there, and the
    409 that reaches the caller names the holder. *)
Lemma remote_conflict_names_holder now (agentId args_what holder : string) d
    (w : world RemoteBackend) :
  agentId ≠ "" → args_what ≠ "" →
  reachable (remote w) = true →
  holds_fresh (registry (remote w)) now args_what holder → holder ≠ agentId →
  claim_handler (remote_fetch now) now (Some agentId) (Some args_what) d w
  = (Ok (TextJson (object [("claimed", Some (JBool false));
                           ("by", Some (JStr holder));
                           ("message", Some (JStr (conflict_message args_what holder)))])),
     w, [EFetch (claim_request (Some agentId) (Some args_what) d)]).
Proof.
  intros Ha Hw Hr (c & Hc & Hb & Hs) Hne.
  destruct w as [[up reg] st]. simpl in *. subst up.
  unfold claim_handler. rewrite !truthy_Some by assumption. simpl.
  unfold try_catch, claim_remote, bind, fetch, remote_fetch, api. simpl.
  unfold checkClaim. rewrite Hc. simpl. rewrite Hs, Hb.
  destruct (String.eqb_spec holder agentId) as [|_]; [done|]. simpl.
  reflexivity.
Qed.


(** C4 (conflicting claim), as amended.  While the store that decides the
    request holds a claim on [args.what] by someone else that is not stale, a
    claim by [agentId] is refused with the holder's name and the claim stays
    as it is.  When the remote call fails, the local store decides and the
    answer carries the claim time.  When the backend is reachable, it decides,
    and the answer carries its message.  Whatever the backend, a 409 that can
    be read is answered with [data.claimedBy] and [data.message] and never with
    a claim time. *)
Theorem conflicting_claim_keeps_holder :
  (∀ (R : Type) (fetch_impl : request → R → fetch_outcome * R) (now : Z)
     (agentId args_what : string) (args_description : option string)
     (w : world R) (c : Claim),
     agentId ≠ "" → args_what ≠ "" →
     claims (local w) !! args_what = Some c →
     by_ c ≠ agentId → is_stale (local w) now c = false →
     let req := claim_request (Some agentId) (Some args_what) args_description in
     failed_claim_call (fetch_impl req (remote w)).1 = true →
     claim_handler fetch_impl now (Some agentId) (Some args_what) args_description w
     = (Ok (TextJson (object [("claimed", Some (JBool false));
                              ("by", Some (JStr (by_ c)));
                              ("since", Some (JNum (since c)))])),
        {| remote := (fetch_impl req (remote w)).2; local := local w |},
        [EFetch req; EStore (CheckClaim args_what)]))
  ∧ (∀ (now : Z) (agentId args_what : string) (args_description : option string)
       (w : world RemoteBackend) (c : Claim),
       agentId ≠ "" → args_what ≠ "" →
       reachable (remote w) = true →
       claims (registry (remote w)) !! args_what = Some c →
       by_ c ≠ agentId → is_stale (registry (remote w)) now c = false →
       claim_handler (remote_fetch now) now (Some agentId) (Some args_what)
         args_description w
       = (Ok (TextJson (object [("claimed", Some (JBool false));
                                ("by", Some (JStr (by_ c)));
                                ("message",
                                 Some (JStr (conflict_message args_what (by_ c))))])),
          w,
          [EFetch (claim_request (Some agentId) (Some args_what) args_description)]))
  ∧ (∀ (R : Type) (fetch_impl : request → R → fetch_outcome * R) (now : Z)
       (agentId args_what args_description : option string) (w : world R)
       (res : response) (data : json),
       truthy agentId = true → truthy args_what = true →
       (fetch_impl (claim_request agentId args_what args_description) (remote w)).1
       = Responded res →
       res_status res = 409 → json_body res = Some data → data ≠ JNull →
       let r := (claim_handler fetch_impl now agentId args_what args_description w).1.1 in
       answer "claimed" r = Some (JBool false)
       ∧ answer "by" r = field "claimedBy" data
       ∧ answer "message" r = field "message" data
       ∧ answer "since" r = None).
Proof.
  split_and!.
  - intros R fetch_impl now agentId args_what d w c Ha Hw Hc Hne Hs req Hf.
    rewrite claim_handler_fallback by (try apply truthy_Some; assumption).
    fold req. simpl default.
    rewrite (claim_local_conflict now agentId args_what d _ (view (local w) now c)).
    + reflexivity.
    + unfold checkClaim. simpl. by rewrite Hc.
    + exact Hne.
    + exact Hs.
  - intros now agentId args_what d w c Ha Hw Hr Hc Hne Hs.
    apply remote_conflict_names_holder; try assumption.
    exists c. done.
  - intros R fetch_impl now agentId args_what d w res data Ha Hw Ho Hst Hb Hn r.
    subst r.
    rewrite (claim_handler_conflict_readable fetch_impl now agentId args_what d w
               res data Ha Hw Ho Hst Hb Hn).
    simpl. unfold object. simpl.
    destruct (field "claimedBy" data), (field "message" data); done.
Qed.

(** ** The handlers on sample states *)

Lemma missing_field_rejected_before_backends_witness :
  let w := {| remote := online store_A_by_X; local := empty_store |} in
  claim_handler (remote_fetch 1000) 1000 None (Some "module-A") None w
  = (Ok (Text "agentId and what required"), w, [])
  ∧ task_create_handler (remote_fetch 1000) 1000 (Some "Fix the build") None None
      (Some "") None None w
    = (Ok (Text "title and createdBy required"), w, []).
Proof.
  intros w.
  destruct (missing_field_rejected_before_backends (remote_fetch 1000) 1000
              None (Some "module-A") None
              (Some "Fix the build") None (Some "") None None w) as [H1 H2].
  split; [apply H1; left; reflexivity | apply H2; right; reflexivity].
Defined.



Lemma conflicting_claim_keeps_holder_witness :
  let down := {| remote := offline empty_store; local := store_A_by_X |} in
  let up := {| remote := online store_A_by_X; local := empty_store |} in
  claim_handler (remote_fetch 1000) 1000 (Some "Y") (Some "module-A") None down
  = (Ok (TextJson (JObj [("claimed", JBool false); ("by", JStr "X");
                         ("since", JNum 0)])),
     down,
     [EFetch (claim_request (Some "Y") (Some "module-A") None);
      EStore (CheckClaim "module-A")])
  ∧ claim_handler (remote_fetch 1000) 1000 (Some "Y") (Some "module-A") None up
    = (Ok (TextJson (JObj [("claimed", JBool false); ("by", JStr "X");
                           ("message", JStr "module-A is already claimed by X")])),
       up,
       [EFetch (claim_request (Some "Y") (Some "module-A") None)]).
Proof.
  intros down up.
  assert (Ha : "Y" ≠ "") by discriminate.
  assert (Hw : "module-A" ≠ "") by discriminate.
  assert (Hx : by_ claim_A_by_X ≠ "Y") by discriminate.
  destruct conflicting_claim_keeps_holder as (Hlocal & Hremote & _).
  split.
  - exact (Hlocal _ (remote_fetch 1000) 1000 "Y" "module-A" None down claim_A_by_X
             Ha Hw eq_refl Hx eq_refl eq_refl).
  - exact (Hremote 1000 "Y" "module-A" None up claim_A_by_X
             Ha Hw eq_refl eq_refl Hx eq_refl).
Defined.

(** With the backend reachable, the conflict that reaches the caller names the
    owner and carries no claim time, whichever store holds the claim.  And a
    claim that only the local store holds is not consulted: the backend grants
    the same work to another agent. *)
Lemma remote_conflict_omits_claim_time :
  let w := {| remote := online store_A_by_X; local := store_A_by_X |} in
  let local_only := {| remote := online empty_store; local := store_A_by_X |} in
  holds_fresh (registry (remote w)) 1000 "module-A" "X"
  ∧ holds_fresh (local w) 1000 "module-A" "X"
  ∧ ¬ reports_conflict true claim_A_by_X
        (claim_handler (remote_fetch 1000) 1000 (Some "Y") (Some "module-A") None w).1.1
  ∧ holds_fresh (local local_only) 1000 "module-A" "X"
  ∧ answer "claimed"
      (claim_handler (remote_fetch 1000) 1000 (Some "Y") (Some "module-A") None
         local_only).1.1
    = Some (JBool true).
Proof.
  intros w local_only. split_and!.
  - exists claim_A_by_X. repeat split; reflexivity.
  - exists claim_A_by_X. repeat split; reflexivity.
  - intros (v & Hv & _ & _ & Hs). specialize (Hs eq_refl).
    vm_compute in Hv. injection Hv as <-. discriminate Hs.
  - exists claim_A_by_X. repeat split; reflexivity.
  - vm_compute. reflexivity.
Qed.




(** The scenario of the spec, served by the local store while the backend is
    down: X claims, Y is refused, Y's release does nothing, X releases, Y
    claims. *)
Example local_claim_scenario :
  let fetch_impl := remote_fetch 1000 in
  let w0 := {| remote := offline empty_store; local := empty_store |} in
  let '(r1, w1, _) := claim_handler fetch_impl 1000 (Some "X") (Some "module-A") None w0 in
  let '(r2, w2, _) := claim_handler fetch_impl 1000 (Some "Y") (Some "module-A") None w1 in
  let '(r3, w3, _) := release_handler fetch_impl (Some "Y") (Some "module-A") w2 in
  let '(r4, w4, _) := release_handler fetch_impl (Some "X") (Some "module-A") w3 in
  let '(r5, w5, _) := claim_handler fetch_impl 1000 (Some "Y") (Some "module-A") None w4 in
  answer "claimed" <$> [r1; r2; r5]
  = [Some (JBool true); Some (JBool false); Some (JBool true)]
  ∧ answer "by" r2 = Some (JStr "X")
  ∧ answer "released" <$> [r3; r4] = [Some (JBool false); Some (JBool true)]
  ∧ by_ <$> claims (local w3) !! "module-A" = Some "X"
  ∧ by_ <$> claims (local w5) !! "module-A" = Some "Y".
Proof. vm_compute. repeat split; reflexivity. Qed.

(** C2 (lock conflict), at a failing input.  The path is locked by X on the
    backend, which answers Y's request with [409 {error}]; the handler reads
    [data.lock] without looking at the status and tells Y [{success: true}],
    with no lock and no holder.  With the backend down, the same lock in the
    local store is reported as [{success: false, error}]. *)
Theorem remote_lock_conflict_reported_as_success :
  let req := {| method := POST; path := "/api/locks"; query := [];
                body := Some (JObj [("resourcePath", JStr "src/index.ts");
                                    ("lockedBy", JStr "Y")]) |} in
  let up := {| remote := online store_index_locked; local := empty_store |} in
  let down := {| remote := offline empty_store; local := store_index_locked |} in
  (remote_fetch 1000 req (remote up)).1
  = Responded (reply 409 (JObj [("error", JStr "locked by X")]))
  ∧ lock_handler (remote_fetch 1000) 1000 "src/index.ts" "Y" None None up
    = (Ok (TextJson (JObj [("success", JBool true)])), up, [EFetch req])
  ∧ lock_handler (remote_fetch 1000) 1000 "src/index.ts" "Y" None None down
    = (Ok (TextJson (JObj [("success", JBool false); ("error", JStr "locked by X")])),
       down, [EFetch req; EStore (AcquireLock "src/index.ts" "Y")]).
Proof. repeat split; vm_compute; reflexivity. Qed.

(** C3 (release), at a failing input.  X holds the claim on the backend, which
    answers Y's release with [200 {released: false}] and keeps the claim; the
    handler ignores the body and tells Y [{released: true}].  With the backend
    down, the same release against the local store answers
    [{released: false}]. *)
Theorem remote_release_by_non_owner_reports_true :
  let req := {| method := DELETE; path := "/api/claims";
                query := [("what", "module-A"); ("by", "Y")]; body := None |} in
  let up := {| remote := online store_A_by_X; local := empty_store |} in
  let down := {| remote := offline empty_store; local := store_A_by_X |} in
  (remote_fetch 1000 req (remote up)).1
  = Responded (reply 200 (JObj [("released", JBool false)]))
  ∧ release_handler (remote_fetch 1000) (Some "Y") (Some "module-A") up
    = (Ok (TextJson (JObj [("released", JBool true); ("what", JStr "module-A");
                           ("by", JStr "Y")])),
       up, [EFetch req])
  ∧ claims (registry (remote up)) !! "module-A" = Some claim_A_by_X
  ∧ release_handler (remote_fetch 1000) (Some "Y") (Some "module-A") down
    = (Ok (TextJson (JObj [("released", JBool false); ("what", JStr "module-A");
                           ("by", JStr "Y")])),
       down, [EFetch req; EStore (ReleaseClaim "module-A" "Y")]).
Proof. repeat split; vm_compute; reflexivity. Qed.

(** C6 (listing), at a failing input.  The only claim is an hour old, hence
    stale, and the caller asks for stale claims too.  With the backend
    reachable the request carries no [includeStale] and the listing comes back
    empty; with the backend down the same store, read locally, lists the
    claim. *)
Theorem remote_listing_drops_includeStale :
  let now := 2 * half_hour in
  let req := {| method := GET; path := "/api/claims"; query := []; body := None |} in
  is_stale store_A_by_X now claim_A_by_X = true
  ∧ list_claims_handler (remote_fetch now) now (Some true)
      {| remote := online store_A_by_X; local := empty_store |}
    = (Ok (TextJson (JObj [("claims", JArr []); ("count", JNum 0)])),
       {| remote := online store_A_by_X; local := empty_store |},
       [EFetch req])
  ∧ list_claims_handler (remote_fetch now) now (Some true)
      {| remote := offline store_A_by_X; local := store_A_by_X |}
    = (Ok (TextJson (JObj [("claims",
                            JArr [JObj [("what", JStr "module-A"); ("by", JStr "X");
                                        ("since", JNum 0); ("stale", JBool true)]]);
                           ("count", JNum 1)])),
       {| remote := offline store_A_by_X; local := store_A_by_X |},
       [EFetch req; EStore (ListClaims (Some true))]).
Proof. repeat split; vm_compute; reflexivity. Qed.

(** * Properties of the dedup window *)

Section WindowFacts.

Import Agent.

Implicit Types (s : IdSet) (x : string) (xs : list string) (st : state).

(** Case analysis on membership in a list that is written out. *)
Ltac listed H :=
  repeat (apply elem_of_cons in H as [-> | H]); try (by apply elem_of_nil in H).

Lemma has_true x s : has x s = true ↔ x ∈ s.
Proof. unfold has. apply bool_decide_eq_true. Qed.

Lemma has_false x s : has x s = false ↔ x ∉ s.
Proof. unfold has. apply bool_decide_eq_false. Qed.

(** Adding a present element changes nothing. *)
Lemma add_present x s : x ∈ s → add x s = s.
Proof. intros H. unfold add. apply has_true in H. by rewrite H. Qed.

Lemma add_absent x s : x ∉ s → add x s = (s ++ [x])%list.
Proof. intros H. unfold add. apply has_false in H. by rewrite H. Qed.

Lemma add_NoDup x s : NoDup s → NoDup (add x s).
Proof.
  intros Hs. destruct (decide (x ∈ s)) as [Hx|Hx].
  - by rewrite add_present.
  - rewrite add_absent by done. apply NoDup_app. repeat split; [done| |apply NoDup_singleton].
    intros y Hy ->%list_elem_of_singleton. done.
Qed.

Lemma add_all_NoDup xs s : NoDup s → NoDup (add_all xs s).
Proof.
  revert s. induction xs as [|x xs IH]; intros s Hs; [done|].
  simpl. apply IH. by apply add_NoDup.
Qed.

Lemma delete_absent x s : x ∉ s → delete x s = s.
Proof.
  intros Hx. unfold delete. induction s as [|y s IH]; [done|].
  apply not_elem_of_cons in Hx as [Hne Hx].
  rewrite filter_cons_True by done. f_equal. by apply IH.
Qed.

(** Forgetting the first [n] elements of a set leaves the rest, in order. *)
Lemma delete_all_take n s : NoDup s → delete_all (take n s) s = drop n s.
Proof.
  revert s. induction n as [|n IH]; intros s Hs; [done|].
  destruct s as [|x s]; [done|].
  apply NoDup_cons in Hs as [Hx Hs]. simpl.
  unfold delete at 1. rewrite filter_cons_False by (intros H; by apply H).
  fold (delete x s). rewrite delete_absent by done. by apply IH.
Qed.

Lemma trim_drop s : NoDup s → trim s = drop (size s - 100) s.
Proof.
  intros Hs. unfold trim. case_decide as H.
  - by apply delete_all_take.
  - unfold size in *. replace (length s - 100)%nat with 0%nat by lia. done.
Qed.

Lemma trim_size s : NoDup s → (size (trim s) ≤ 100)%nat.
Proof.
  intros Hs. rewrite trim_drop by done. unfold size. rewrite length_drop. lia.
Qed.

Lemma trim_NoDup s : NoDup s → NoDup (trim s).
Proof.
  intros Hs. rewrite trim_drop by done.
  rewrite <- (take_drop (size s - 100) s) in Hs. by apply NoDup_app in Hs as (_ & _ & ?).
Qed.

(** What the window looks like after one pass, whichever branch ran. *)
Lemma process_window st newMessages :
  (size (processedMessageIds st) ≤ 100)%nat → NoDup (processedMessageIds st) →
  let marked := add_all (id <$> unprocessed (processedMessageIds st) newMessages)
                  (processedMessageIds st) in
  processedMessageIds (process st newMessages).1 = drop (size marked - 100) marked.
Proof.
  intros Hsz Hnd marked. unfold process.
  case_decide as Hlen.
  - case_decide as Hun; simpl.
    + apply length_zero_iff_nil in Hun. subst marked. rewrite Hun. simpl.
      unfold size in *. by replace (length (processedMessageIds st) - 100)%nat with 0%nat by lia.
    + apply trim_drop. by apply add_all_NoDup.
  - assert (newMessages = []) as -> by (destruct newMessages; [done | simpl in Hlen; lia]).
    subst marked. simpl.
    unfold size in *. by replace (length (processedMessageIds st) - 100)%nat with 0%nat by lia.
Qed.

Lemma process_ok st newMessages : window_ok st → window_ok (process st newMessages).1.
Proof.
  intros [Hsz Hnd]. unfold window_ok.
  rewrite process_window by done.
  set (marked := add_all _ _).
  assert (NoDup marked) as Hm by by apply add_all_NoDup.
  split.
  - unfold size. rewrite length_drop. lia.
  - rewrite <- (take_drop (size marked - 100) marked) in Hm.
    by apply NoDup_app in Hm as (_ & _ & ?).
Qed.

Lemma run_ok batches st : window_ok st → window_ok (run batches st).
Proof.
  revert st. induction batches as [|b batches IH]; intros st Hst; [done|].
  simpl. apply IH. by apply process_ok.
Qed.

Lemma initial_ok : window_ok initial.
Proof. split; [simpl; lia | apply NoDup_nil_2]. Qed.

Lemma unprocessed_seen s (ms : list Message) :
  (∀ m, m ∈ ms → id m ∈ s) → unprocessed s ms = [].
Proof.
  unfold unprocessed. induction ms as [|m ms IH]; intros H; [done|].
  rewrite filter_cons_False.
  - apply IH. intros m' Hm'. apply H. by right.
  - intros Hh%has_false. apply Hh, H. by left.
Qed.

(** C7 (bounded window, oldest evicted first).  After any sequence of batches
    from the empty window, one more batch leaves at most 100 ids: the window
    with the new ids appended, less its first [size - 100] elements.  A 101st
    distinct id pushes out exactly the oldest one, and adding an id that is
    already there changes nothing. *)
Theorem window_bounded_oldest_evicted (batches : list (list Message))
    (newMessages : list Message) :
  let st := run batches initial in
  let window := processedMessageIds st in
  let marked := add_all (id <$> unprocessed window newMessages) window in
  let window' := processedMessageIds (process st newMessages).1 in
  (size window' ≤ 100)%nat
  ∧ window' = drop (size marked - 100) marked
  ∧ (∀ m oldest rest,
       newMessages = [m] → window = oldest :: rest → size window = 100%nat →
       id m ∉ window →
       window' = (rest ++ [id m])%list ∧ size window' = 100%nat ∧ oldest ∉ window')
  ∧ (∀ x, x ∈ window → add x window = window ∧ size (add x window) = size window).
Proof.
  intros st window marked window'.
  destruct (run_ok batches initial initial_ok) as [Hsz Hnd]. fold st window in Hsz, Hnd.
  assert (Hw : window' = drop (size marked - 100) marked)
    by (apply process_window; assumption).
  split; [|split; [exact Hw|split]].
  - rewrite Hw. unfold size. rewrite length_drop. lia.
  - intros m oldest rest -> Hwin Hlen Hm.
    assert (Hmk : marked = (window ++ [id m])%list).
    { subst marked. unfold unprocessed.
      rewrite filter_cons_True by (by apply has_false). simpl.
      by apply add_absent. }
    assert (Hres : window' = (rest ++ [id m])%list).
    { rewrite Hw, Hmk. unfold size in *. rewrite length_app, Hlen. simpl.
      by rewrite Hwin. }
    split; [exact Hres|]. split.
    + rewrite Hres. unfold size in *. rewrite length_app. simpl.
      rewrite Hwin in Hlen. simpl in Hlen. lia.
    + rewrite Hres. rewrite Hwin in Hnd, Hm.
      apply NoDup_cons in Hnd as [Ho _].
      apply not_elem_of_cons in Hm as [Hne _].
      intros [H|H%list_elem_of_singleton]%elem_of_app; [done|]. congruence.
  - intros x Hx. by rewrite add_present.
Qed.

(** C10 (batch of seen messages).  A batch that is not empty and holds only ids
    from the window moves [lastProcessedTimestamp] to the timestamp of its last
    message and does nothing else: the window is the same, the two log lines
    are the only effects. *)
Theorem seen_batch_only_advances_timestamp st (newMessages : list Message) :
  newMessages ≠ [] →
  (∀ m, m ∈ newMessages → id m ∈ processedMessageIds st) →
  ∃ final,
    last newMessages = Some final
    ∧ process st newMessages
      = ({| lastProcessedTimestamp := Some (timestamp final);
            processedMessageIds := processedMessageIds st |},
         [LogFound (length newMessages); LogSkipping (length newMessages)]).
Proof.
  intros Hne Hseen.
  destruct (last newMessages) as [final|] eqn:Hlast;
    [|by apply last_None in Hlast].
  exists final. split; [done|]. unfold process.
  assert (Hun : unprocessed (processedMessageIds st) newMessages = []).
  { apply unprocessed_seen. exact Hseen. }
  rewrite Hun, Hlast. simpl.
  case_decide as Hlen; [done|].
  destruct newMessages; [done | simpl in Hlen; lia].
Qed.

End WindowFacts.

(** ** The poll loop on a sample run *)

Lemma window_bounded_oldest_evicted_witness :
  let st := Agent.run [first_hundred] Agent.initial in
  let window' := Agent.processedMessageIds (Agent.process st [numbered 100]).1 in
  window' = ((pretty <$> seq 1 99) ++ [Agent.id (numbered 100)])%list
  ∧ Agent.size window' = 100%nat
  ∧ "0" ∉ window'.
Proof.
  intros st window'.
  destruct (window_bounded_oldest_evicted [first_hundred] [numbered 100])
    as (_ & _ & H & _).
  assert (Hwin : Agent.processedMessageIds st = "0" :: (pretty <$> seq 1 99))
    by (vm_compute; reflexivity).
  assert (Hlen : Agent.size (Agent.processedMessageIds st) = 100%nat)
    by (vm_compute; reflexivity).
  assert (Hfresh : Agent.id (numbered 100) ∉ Agent.processedMessageIds st).
  { refine (proj1 (bool_decide_eq_false _) _). vm_compute. reflexivity. }
  exact (H (numbered 100) "0" (pretty <$> seq 1 99) eq_refl Hwin Hlen Hfresh).
Defined.

Lemma seen_batch_only_advances_timestamp_witness :
  let st := Agent.run [first_hundred] Agent.initial in
  ∃ final,
    last [numbered 3; numbered 42] = Some final
    ∧ Agent.process st [numbered 3; numbered 42]
      = ({| Agent.lastProcessedTimestamp := Some (Agent.timestamp final);
            Agent.processedMessageIds := Agent.processedMessageIds st |},
         [Agent.LogFound (length [numbered 3; numbered 42]);
          Agent.LogSkipping (length [numbered 3; numbered 42])]).
Proof.
  intros st.
  assert (Hne : [numbered 3; numbered 42] ≠ []) by discriminate.
  assert (Hseen : ∀ m, m ∈ [numbered 3; numbered 42] →
                       Agent.id m ∈ Agent.processedMessageIds st).
  { intros m Hm.
    repeat (apply elem_of_cons in Hm as [-> | Hm]);
      [| | by apply elem_of_nil in Hm];
      refine (proj1 (bool_decide_eq_true _) _); vm_compute; reflexivity. }
  exact (seen_batch_only_advances_timestamp st _ Hne Hseen).
Defined.

(** * Further properties of the handlers *)

Section PatchedAndUnpatched.

Context {R : Type} (fetch_impl : request -> R -> fetch_outcome * R) (now : Z).

Implicit Types (w : world R) (agentId args_what args_description : option string).

(** The world a handler continues in after its request. *)
Let answered_world (req : request) w : world R :=
  {| remote := (fetch_impl req (remote w)).2; local := local w |}.

(** X1.  The claim handlers fall back to what they did before the patch.  When a
    required field is missing, [new_claim] and [new_release] answer exactly as
    [old_claim] and [old_release].  When the remote call fails, [new_claim],
    [new_release] and [new_list_claims] give the answer, the local store and the
    store calls of the unpatched handler, run after the request. *)
Theorem claim_handlers_fall_back_to_unpatched
    agentId args_what args_description args_includeStale w :
  let claim_req := claim_request agentId args_what args_description in
  let release_req := {| method := DELETE; path := "/api/claims";
                        query := [("what", default "" args_what);
                                  ("by", default "" agentId)];
                        body := None |} in
  let list_req := {| method := GET; path := "/api/claims"; query := [];
                     body := None |} in
  (truthy agentId = false ∨ truthy args_what = false →
   claim_handler fetch_impl now agentId args_what args_description w
   = old_claim_handler now agentId args_what args_description w
   ∧ release_handler fetch_impl agentId args_what w
     = old_release_handler agentId args_what w)
  ∧ (truthy agentId = true → truthy args_what = true →
     failed_claim_call (fetch_impl claim_req (remote w)).1 = true →
     claim_handler fetch_impl now agentId args_what args_description w
     = after_fetch claim_req
         (old_claim_handler now agentId args_what args_description
            (answered_world claim_req w)))
  ∧ (truthy agentId = true → truthy args_what = true →
     failed_call (fetch_impl release_req (remote w)).1 = true →
     release_handler fetch_impl agentId args_what w
     = after_fetch release_req
         (old_release_handler agentId args_what (answered_world release_req w)))
  ∧ (failed_call (fetch_impl list_req (remote w)).1 = true →
     list_claims_handler fetch_impl now args_includeStale w
     = after_fetch list_req
         (old_list_claims_handler now args_includeStale (answered_world list_req w))).
Proof.
  intros claim_req release_req list_req. repeat split.
  - unfold claim_handler, old_claim_handler.
    destruct H as [H|H]; rewrite H; [|destruct (truthy agentId)]; reflexivity.
  - unfold release_handler, old_release_handler.
    destruct H as [H|H]; rewrite H; [|destruct (truthy agentId)]; reflexivity.
  - intros Ha Hw Hf. rewrite claim_handler_fallback by assumption.
    unfold old_claim_handler. rewrite Ha, Hw. reflexivity.
  - intros Ha Hw Hf. unfold release_handler, old_release_handler.
    rewrite Ha, Hw. simpl. unfold try_catch, bind, fetch. fold release_req.
    unfold answered_world.
    destruct (fetch_impl release_req (remote w)) as [[|res] r]; simpl in *.
    + destruct (store_op _ _ _) as [[[|] ?] ?]; reflexivity.
    + apply bool_decide_eq_true in Hf. unfold res_json, lift. rewrite Hf. simpl.
      destruct (store_op _ _ _) as [[[|] ?] ?]; reflexivity.
  - intros Hf. unfold list_claims_handler, old_list_claims_handler.
    unfold try_catch, bind, fetch. fold list_req. unfold answered_world.
    destruct (fetch_impl list_req (remote w)) as [[|res] r]; simpl in *.
    + reflexivity.
    + apply bool_decide_eq_true in Hf. unfold res_json, lift. rewrite Hf. reflexivity.
Qed.

(** X2.  The lock and task-creation handlers fall back to what they did before
    the patch.  When the remote call fails (the request is rejected, or the
    body is not JSON or is [null], so that [data.lock] or [data.task] cannot be
    read), [new_lock] and [new_task_create] give the answer, the local store
    and the store calls of [old_lock] and [old_task_create], run after the
    request. *)
Theorem lock_and_create_fall_back_to_unpatched
    (resourcePath agentId : string) (args_resourceType args_reason : option string)
    (args_title args_priority args_createdBy args_assignee : option string)
    args_description (args_tags : option (list string)) w :
  let lock_req := {| method := POST; path := "/api/locks"; query := [];
                     body := Some (object [("resourcePath", Some (JStr resourcePath));
                                           ("lockedBy", Some (JStr agentId));
                                           ("reason", str args_reason)]) |} in
  let create_req :=
    {| method := POST; path := "/api/tasks"; query := [];
       body := Some (object (task_input_props
                               {| title := default "" args_title;
                                  description := args_description;
                                  priority := or_else args_priority "medium";
                                  status := "todo";
                                  createdBy := default "" args_createdBy;
                                  assignee := args_assignee;
                                  tags := default [] args_tags |})) |} in
  (unreadable (fetch_impl lock_req (remote w)).1 = true →
   lock_handler fetch_impl now resourcePath agentId args_resourceType args_reason w
   = after_fetch lock_req
       (old_lock_handler now resourcePath agentId args_resourceType args_reason
          (answered_world lock_req w)))
  ∧ (truthy args_title = true → truthy args_createdBy = true →
     unreadable (fetch_impl create_req (remote w)).1 = true →
     task_create_handler fetch_impl now args_title args_description args_priority
       args_createdBy args_assignee args_tags w
     = after_fetch create_req
         (old_task_create_handler now args_title args_description args_priority
            args_createdBy args_assignee args_tags (answered_world create_req w))).
Proof.
  intros lock_req create_req. split.
  - intros Hf. unfold lock_handler, old_lock_handler.
    unfold try_catch, bind, fetch, store_op. fold lock_req. unfold answered_world.
    destruct (fetch_impl lock_req (remote w)) as [[|res] r]; cbn -[acquireLock] in *.
    + destruct (acquireLock _ _ _ _ _ _) as [[|] ?]; reflexivity.
    + unfold res_json, lift.
      destruct (json_body res) as [[]|]; try discriminate Hf; cbn -[acquireLock];
        destruct (acquireLock _ _ _ _ _ _) as [[|] ?]; reflexivity.
  - intros Ht Hc Hf. unfold task_create_handler, old_task_create_handler.
    rewrite Ht, Hc. simpl.
    unfold try_catch, bind, fetch, store_op. fold create_req. unfold answered_world.
    destruct (fetch_impl create_req (remote w)) as [[|res] r]; simpl in *.
    + reflexivity.
    + unfold res_json, lift.
      destruct (json_body res) as [[]|]; try discriminate Hf; reflexivity.
Qed.

(** X3.  Unlocking and listing tasks fall back to what they did before the
    patch.  When the request is rejected, [new_unlock] gives the answer, the
    local store and the store call of [old_unlock], run after the request; when
    the request is rejected or the body is not JSON, [new_task_list] gives
    those of [old_task_list].  When the request is answered, whatever the
    answer, [new_unlock] calls nothing else; nor does [new_task_list] when the
    body is JSON. *)
Theorem unlock_and_list_fall_back_to_unpatched
    (resourcePath agentId : string) (args_status : option string) w :
  let unlock_req := unlock_request resourcePath in
  let list_req := task_list_request args_status in
  ((fetch_impl unlock_req (remote w)).1 = NetworkError →
   unlock_handler fetch_impl resourcePath agentId w
   = after_fetch' unlock_req
       (old_unlock_handler resourcePath agentId (answered_world unlock_req w)))
  ∧ (failed_call (fetch_impl list_req (remote w)).1 = true →
     task_list_handler fetch_impl args_status w
     = after_fetch' list_req
         (old_task_list_handler args_status (answered_world list_req w)))
  ∧ (∀ res, (fetch_impl unlock_req (remote w)).1 = Responded res →
            (unlock_handler fetch_impl resourcePath agentId w).2
            = [Earlier (EFetch unlock_req)])
  ∧ (failed_call (fetch_impl list_req (remote w)).1 = false →
     (task_list_handler fetch_impl args_status w).2 = [Earlier (EFetch list_req)]).
Proof.
  intros unlock_req list_req. split_and!.
  - intros Hf. unfold unlock_handler, old_unlock_handler.
    unfold try_catch', bind', earlier, fetch. fold unlock_req. unfold answered_world.
    destruct (fetch_impl unlock_req (remote w)) as [o r]. simpl in Hf. subst o. simpl.
    unfold more_store_op. cbn -[releaseLock]. destruct (releaseLock _ _ _); reflexivity.
  - intros Hf. unfold task_list_handler, old_task_list_handler.
    unfold try_catch', bind', earlier, fetch. fold list_req. unfold answered_world.
    destruct (fetch_impl list_req (remote w)) as [[|res] r]; simpl in *.
    + reflexivity.
    + apply bool_decide_eq_true in Hf. unfold res_json, lift. rewrite Hf. reflexivity.
  - intros res Ho. unfold unlock_handler.
    unfold try_catch', bind', earlier, fetch. fold unlock_req.
    destruct (fetch_impl unlock_req (remote w)) as [o r]. simpl in Ho. subst o.
    reflexivity.
  - intros Hf. unfold task_list_handler.
    unfold try_catch', bind', earlier, fetch. fold list_req.
    destruct (fetch_impl list_req (remote w)) as [[|res] r]; simpl in *;
      [discriminate Hf|].
    apply bool_decide_eq_false in Hf. unfold res_json, lift.
    destruct (json_body res) as [data|]; [reflexivity | done].
Qed.

(** X4.  Every answer to a claim other than a 409 counts as success: whatever
    the status (a 400 or a 500 as well) and whatever JSON the body holds, the
    caller gets [{claimed: true, what, by}] built from its own arguments, and
    the local store is not called. *)
Theorem claim_answer_other_than_409_is_success
    agentId args_what args_description w res data :
  truthy agentId = true → truthy args_what = true →
  let req := claim_request agentId args_what args_description in
  (fetch_impl req (remote w)).1 = Responded res →
  res_status res ≠ 409 → json_body res = Some data →
  claim_handler fetch_impl now agentId args_what args_description w
  = (Ok (TextJson (object [("claimed", Some (JBool true));
                           ("what", str args_what);
                           ("by", str agentId)])),
     answered_world req w, [EFetch req]).
Proof.
  intros Ha Hw req Ho Hs Hb. unfold claim_handler. rewrite Ha, Hw. simpl.
  unfold try_catch, claim_remote, bind, fetch. fold req. unfold answered_world.
  destruct (fetch_impl req (remote w)) as [o r]. simpl in Ho. subst o. simpl.
  unfold res_json, lift. rewrite Hb. simpl.
  apply Z.eqb_neq in Hs. rewrite Hs. reflexivity.
Qed.

(** X5.  Whatever the backend answers to an unlock (any status, any body, JSON
    or not), the caller is told [{released: true, resourcePath}] and the local
    store is not called.  The request names the path only, so the outcome is
    the same for every caller. *)
Theorem unlock_answer_is_always_released
    (resourcePath agentId other : string) w res :
  let req := unlock_request resourcePath in
  (fetch_impl req (remote w)).1 = Responded res →
  unlock_handler fetch_impl resourcePath agentId w
  = (Ok (TextJson (object [("released", Some (JBool true));
                           ("resourcePath", Some (JStr resourcePath))])),
     answered_world req w, [Earlier (EFetch req)])
  ∧ unlock_handler fetch_impl resourcePath other w
    = unlock_handler fetch_impl resourcePath agentId w.
Proof.
  intros req Ho.
  assert (H : ∀ a, unlock_handler fetch_impl resourcePath a w
                   = (Ok (TextJson (object [("released", Some (JBool true));
                                            ("resourcePath", Some (JStr resourcePath))])),
                      answered_world req w, [Earlier (EFetch req)])).
  { intros a. unfold unlock_handler, try_catch', bind', earlier, fetch. fold req.
    unfold answered_world.
    destruct (fetch_impl req (remote w)) as [o r]. simpl in Ho. subst o. reflexivity. }
  split; [apply H | by rewrite !H].
Qed.

(** X6.  The lock request never carries the resource type: when the backend
    answers with a body that can be read, the result of [new_lock] is the same
    for every [args.resourceType], and the type only reaches the local store
    on the fall-back path. *)
Theorem lock_answer_ignores_resource_type
    (resourcePath agentId : string) (type1 type2 args_reason : option string) w :
  let req := {| method := POST; path := "/api/locks"; query := [];
                body := Some (object [("resourcePath", Some (JStr resourcePath));
                                      ("lockedBy", Some (JStr agentId));
                                      ("reason", str args_reason)]) |} in
  unreadable (fetch_impl req (remote w)).1 = false →
  lock_handler fetch_impl now resourcePath agentId type1 args_reason w
  = lock_handler fetch_impl now resourcePath agentId type2 args_reason w.
Proof.
  intros req Hf. unfold lock_handler, try_catch, bind, fetch. fold req.
  destruct (fetch_impl req (remote w)) as [[|res] r]; simpl in *; [discriminate|].
  unfold res_json, lift.
  destruct (json_body res) as [[]|]; try discriminate Hf; reflexivity.
Qed.

(** X7.  The two listings hand back whatever JSON the backend sends, under any
    status: an error body comes out as if it were the list, and neither
    [args.includeStale] nor the local store plays a part. *)
Theorem listings_hand_on_any_json
    (args_includeStale : option bool) (args_status : option string) w data :
  let claims_req := {| method := GET; path := "/api/claims"; query := [];
                       body := None |} in
  let tasks_req := task_list_request args_status in
  (∀ res, (fetch_impl claims_req (remote w)).1 = Responded res →
          json_body res = Some data →
          list_claims_handler fetch_impl now args_includeStale w
          = (Ok (TextJson data), answered_world claims_req w, [EFetch claims_req]))
  ∧ (∀ res, (fetch_impl tasks_req (remote w)).1 = Responded res →
            json_body res = Some data →
            task_list_handler fetch_impl args_status w
            = (Ok (TextJson data), answered_world tasks_req w,
               [Earlier (EFetch tasks_req)])).
Proof.
  intros claims_req tasks_req. split; intros res Ho Hb.
  - unfold list_claims_handler, try_catch, bind, fetch. fold claims_req.
    unfold answered_world.
    destruct (fetch_impl claims_req (remote w)) as [o r]. simpl in Ho. subst o. simpl.
    unfold res_json, lift. rewrite Hb. reflexivity.
  - unfold task_list_handler, try_catch', bind', earlier, fetch. fold tasks_req.
    unfold answered_world.
    destruct (fetch_impl tasks_req (remote w)) as [o r]. simpl in Ho. subst o. simpl.
    unfold res_json, lift. rewrite Hb. reflexivity.
Qed.

End PatchedAndUnpatched.

(** * Further properties of the dedup window *)

Section WindowExtras.

Import Agent.

Implicit Types (s : list string) (xs : list string) (st : state).

(** Marking appends: the ids that were not there yet, each once, in order. *)
Lemma add_all_appends xs s :
  ∃ ys, add_all xs s = (s ++ ys)%list
        ∧ (length ys ≤ length xs)%nat
        ∧ (∀ x, x ∈ xs → x ∈ (s ++ ys)%list)
        ∧ (∀ y, y ∈ ys → y ∈ xs).
Proof.
  revert s. induction xs as [|x xs IH]; intros s.
  - exists []. rewrite app_nil_r. split_and!; [done | simpl; lia | | ];
      intros ? H; by apply elem_of_nil in H.
  - simpl. destruct (decide (x ∈ s)) as [Hx|Hx].
    + rewrite add_present by done.
      destruct (IH s) as (ys & -> & Hl & Hin & Hsub). exists ys.
      split_and!; [done | simpl; lia | | ].
      * intros y [->|Hy]%elem_of_cons; [apply elem_of_app; by left | by apply Hin].
      * intros y Hy. right. by apply Hsub.
    + rewrite add_absent by done.
      destruct (IH (s ++ [x])%list) as (ys & -> & Hl & Hin & Hsub).
      exists (x :: ys). rewrite <- app_assoc. simpl.
      split_and!; [done | simpl; lia | | ].
      * intros y [->|Hy]%elem_of_cons.
        -- apply elem_of_app. right. by left.
        -- specialize (Hin y Hy). by rewrite <- app_assoc in Hin.
      * intros y [->|Hy]%elem_of_cons; [by left | right; by apply Hsub].
Qed.

(** Ids that are all new and distinct are appended as they are. *)
Lemma add_all_new xs s :
  NoDup xs → (∀ x, x ∈ xs → x ∉ s) → add_all xs s = (s ++ xs)%list.
Proof.
  revert s. induction xs as [|x xs IH]; intros s Hnd Hnew.
  - by rewrite app_nil_r.
  - apply NoDup_cons in Hnd as [Hx Hnd]. simpl.
    rewrite add_absent by (apply Hnew; by left).
    rewrite IH; [by rewrite <- app_assoc | done |].
    intros y Hy [Hys | ->%list_elem_of_singleton]%elem_of_app; [|done].
    apply (Hnew y); [by right | done].
Qed.

Lemma unprocessed_unseen s (m : Message) ms : m ∈ unprocessed s ms → id m ∉ s.
Proof.
  unfold unprocessed. intros [Hh _]%list_elem_of_filter. by apply has_false.
Qed.

Lemma unprocessed_sublist s (ms : list Message) : unprocessed s ms `sublist_of` ms.
Proof.
  unfold unprocessed. induction ms as [|m ms IH]; [done|].
  rewrite filter_cons. case_decide; by constructor.
Qed.

Lemma unprocessed_all s (ms : list Message) :
  (∀ m, m ∈ ms → id m ∉ s) → unprocessed s ms = ms.
Proof.
  unfold unprocessed. induction ms as [|m ms IH]; intros H; [done|].
  rewrite filter_cons_True by (apply has_false, H; by left).
  f_equal. apply IH. intros m' Hm'. apply H. by right.
Qed.

Lemma pipeline_calls_fmap {A} (f : A → effect) (l : list A) :
  (∀ a, pipeline (f a) = false) → pipeline_calls (f <$> l) = [].
Proof.
  intros Hf. unfold pipeline_calls. induction l as [|a l IH]; [done|].
  simpl. rewrite filter_cons_False by (rewrite Hf; done). exact IH.
Qed.

Lemma pipeline_calls_trim s : pipeline_calls (trim_effects s) = [].
Proof.
  unfold trim_effects. case_decide; [|done]. by apply pipeline_calls_fmap.
Qed.

(** X8.  The patch changes what reaches the pipeline by filtering and nothing
    else.  Before it, a pass makes the three pipeline calls on every fetched
    batch; after it, on the unseen messages of the batch, which are a sublist
    of it and all of it when no id is in the window.  Both set
    [lastProcessedTimestamp] alike. *)
Theorem patch_only_filters_the_pipeline st (newMessages : list Message) :
  let fresh := unprocessed (processedMessageIds st) newMessages in
  pipeline_calls (old_process st newMessages).2 = calls_on newMessages
  ∧ pipeline_calls (process st newMessages).2 = calls_on fresh
  ∧ fresh `sublist_of` newMessages
  ∧ ((∀ m, m ∈ newMessages → id m ∉ processedMessageIds st) → fresh = newMessages)
  ∧ lastProcessedTimestamp (process st newMessages).1
    = lastProcessedTimestamp (old_process st newMessages).1.
Proof.
  intros fresh. split_and!.
  - unfold old_process. case_decide as Hlen.
    + destruct newMessages; [simpl in Hlen; lia | reflexivity].
    + destruct newMessages; [reflexivity | simpl in Hlen; lia].
  - unfold process. fold fresh. case_decide as Hlen.
    + case_decide as Hun.
      * apply length_zero_iff_nil in Hun. rewrite Hun. reflexivity.
      * simpl. unfold pipeline_calls.
        rewrite filter_cons_False by done.
        rewrite !filter_app.
        fold (pipeline_calls (MarkProcessed ∘ id <$> fresh)).
        fold (pipeline_calls (trim_effects (add_all (id <$> fresh) (processedMessageIds st)))).
        rewrite pipeline_calls_fmap by done. rewrite pipeline_calls_trim. simpl.
        destruct fresh; [done | reflexivity].
    + assert (newMessages = []) as Hnil
        by (destruct newMessages; [done | simpl in Hlen; lia]).
      subst fresh. rewrite Hnil. reflexivity.
  - apply unprocessed_sublist.
  - apply unprocessed_all.
  - unfold process, old_process. case_decide; [|done].
    case_decide; reflexivity.
Qed.

(** X9.  A batch with more than 100 distinct unseen ids overflows the window in
    one pass: what is left are the last 100 ids of that batch.  Everything that
    was in the window is gone, and the first unseen message of the batch has
    been handed on without its id being kept. *)
Theorem oversized_batch_keeps_its_last_hundred st (newMessages : list Message) :
  window_ok st →
  let fresh := unprocessed (processedMessageIds st) newMessages in
  let window' := processedMessageIds (process st newMessages).1 in
  NoDup (id <$> fresh) → (100 < length fresh)%nat →
  window' = drop (length fresh - 100) (id <$> fresh)
  ∧ (∀ x, x ∈ processedMessageIds st → x ∉ window')
  ∧ (∀ m, head fresh = Some m →
          ShouldRespond fresh ∈ (process st newMessages).2 ∧ id m ∉ window').
Proof.
  intros [Hsz Hnd] fresh window' Hdistinct Hbig.
  assert (Hnew : ∀ x, x ∈ id <$> fresh → x ∉ processedMessageIds st).
  { intros x (m & -> & Hm)%list_elem_of_fmap. by eapply unprocessed_unseen. }
  assert (Hw : window' = drop (length fresh - 100) (id <$> fresh)).
  { subst window'. rewrite process_window by done. fold fresh.
    rewrite add_all_new by done. unfold size in *.
    rewrite length_app, length_fmap, drop_app.
    rewrite drop_ge by lia. simpl. f_equal. lia. }
  assert (Hgone : ∀ x, x ∈ processedMessageIds st → x ∉ window').
  { intros x Hx Hin. rewrite Hw in Hin. apply subseteq_drop in Hin.
    by apply (Hnew x). }
  split_and!; [exact Hw | exact Hgone |].
  intros m Hm. split.
  - unfold process. fold fresh.
    assert (Hlen : (0 < length newMessages)%nat).
    { pose proof (sublist_length _ _ (unprocessed_sublist (processedMessageIds st)
                                        newMessages)) as Hl.
      fold fresh in Hl. lia. }
    rewrite decide_True by done. rewrite decide_False by lia. simpl.
    right. apply elem_of_app; right. apply elem_of_app; right.
    right. right. left.
  - destruct fresh as [|m' fresh'] eqn:Hf; [done|]. injection Hm as ->.
    rewrite Hw. simpl in *. apply NoDup_cons in Hdistinct as [Hhead _].
    destruct (length fresh' - 99)%nat as [|k] eqn:Hk; [lia|].
    simpl. intros Hin%subseteq_drop. done.
Qed.

(** X10.  A pass that lets at most 100 messages through remembers all of them:
    every id it handed on is in the window afterwards, so the same messages
    fetched again right away are all dropped. *)
Theorem forwarded_ids_are_remembered st (newMessages : list Message) :
  window_ok st →
  let fresh := unprocessed (processedMessageIds st) newMessages in
  let st' := (process st newMessages).1 in
  (length fresh ≤ 100)%nat →
  (∀ m, m ∈ fresh → id m ∈ processedMessageIds st')
  ∧ unprocessed (processedMessageIds st') fresh = [].
Proof.
  intros [Hsz Hnd] fresh st' Hsmall.
  assert (Hall : ∀ m, m ∈ fresh → id m ∈ processedMessageIds st').
  { intros m Hm. subst st'. rewrite process_window by done. fold fresh.
    destruct (add_all_appends (id <$> fresh) (processedMessageIds st))
      as (ys & -> & Hl & Hin & _).
    rewrite length_fmap in Hl.
    assert (Hy : id m ∈ ys).
    { specialize (Hin (id m)). rewrite elem_of_app in Hin.
      destruct Hin as [Hs|Hy]; [apply list_elem_of_fmap; by exists m | | done].
      by apply unprocessed_unseen in Hm. }
    unfold size in *. rewrite length_app, drop_app.
    apply elem_of_app. right.
    replace (length (processedMessageIds st) + length ys - 100
             - length (processedMessageIds st))%nat with 0%nat by lia.
    exact Hy. }
  split; [exact Hall | by apply unprocessed_seen].
Qed.

(** X11.  The window forgets in order of first arrival, not of last sighting.
    When it is full and a pass lets anything through, its oldest id is dropped,
    also when the same batch has just delivered that id again. *)
Theorem full_window_drops_its_oldest st (newMessages : list Message) oldest rest :
  window_ok st →
  processedMessageIds st = oldest :: rest →
  size (processedMessageIds st) = 100%nat →
  unprocessed (processedMessageIds st) newMessages ≠ [] →
  oldest ∉ processedMessageIds (process st newMessages).1.
Proof.
  intros [Hsz Hnd] Hwin Hfull Hfresh.
  rewrite process_window by done.
  assert (Hsome : ∃ m, m ∈ unprocessed (processedMessageIds st) newMessages).
  { destruct (unprocessed (processedMessageIds st) newMessages) as [|m ?];
      [done | exists m; by left]. }
  destruct Hsome as [m Hm].
  pose proof (unprocessed_unseen _ _ _ Hm) as Hu.
  pose proof (add_all_NoDup (id <$> unprocessed (processedMessageIds st) newMessages)
                _ Hnd) as Hmnd.
  destruct (add_all_appends (id <$> unprocessed (processedMessageIds st) newMessages)
              (processedMessageIds st)) as (ys & Hmarked & _ & Hin & _).
  assert (Hy : id m ∈ ys).
  { specialize (Hin (id m)). rewrite elem_of_app in Hin.
    destruct Hin as [Hs|Hy]; [apply list_elem_of_fmap; by exists m | done | done]. }
  rewrite Hmarked in *. rewrite Hwin in *. unfold size in *.
  rewrite length_app. simpl in *.
  destruct ys as [|y ys]; [by apply elem_of_nil in Hy|]. simpl.
  replace (length rest + S (length ys) - 99)%nat with (S (length ys)) by lia.
  simpl. apply NoDup_cons in Hmnd as [Ho _].
  intros Hdrop%subseteq_drop. done.
Qed.

(** X12.  The window only ever holds ids of messages the loop has fetched:
    after any sequence of batches from the empty window, every id in it is the
    id of a message of one of those batches. *)
Theorem window_holds_fetched_ids_only (batches : list (list Message)) x :
  x ∈ processedMessageIds (run batches initial) →
  ∃ b m, b ∈ batches ∧ m ∈ b ∧ id m = x.
Proof.
  assert (Hgen : ∀ bs st, window_ok st → x ∈ processedMessageIds (run bs st) →
            x ∈ processedMessageIds st ∨ ∃ b m, b ∈ bs ∧ m ∈ b ∧ id m = x).
  { induction bs as [|b bs IH]; intros st Hok Hx; [by left|].
    simpl in Hx. destruct (IH _ (process_ok st b Hok) Hx) as [Hin|(b' & m & Hb & Hm & Hid)].
    - destruct Hok as [Hsz Hnd]. rewrite process_window in Hin by done.
      apply subseteq_drop in Hin.
      destruct (add_all_appends (id <$> unprocessed (processedMessageIds st) b)
                  (processedMessageIds st)) as (ys & Hmk & _ & _ & Hsub).
      rewrite Hmk in Hin. apply elem_of_app in Hin as [Hin|Hin]; [by left|].
      right. apply Hsub, list_elem_of_fmap in Hin as (m & -> & Hm).
      exists b, m. split_and!; [by left | | done].
      unfold unprocessed in Hm. by apply list_elem_of_filter in Hm as [_ ?].
    - right. exists b', m. split_and!; [by right | done | done]. }
  intros Hx. destruct (Hgen batches initial initial_ok Hx) as [Hin|H]; [|exact H].
  by apply elem_of_nil in Hin.
Qed.

End WindowExtras.

(** * Properties of the patch scripts *)

Section PatchFacts.

Import Patch.

Implicit Types (old new content pre post : string).

Lemma append_nil content : "" +:+ content = content.
Proof. reflexivity. Qed.

Lemma append_cons c pre content : String c pre +:+ content = String c (pre +:+ content).
Proof. reflexivity. Qed.

Lemma append_assoc pre content post :
  (pre +:+ content) +:+ post = pre +:+ (content +:+ post).
Proof.
  induction pre as [|c pre IH]; [done|]. rewrite !append_cons. by rewrite IH.
Qed.

Lemma length_append pre post :
  String.length (pre +:+ post) = (String.length pre + String.length post)%nat.
Proof.
  induction pre as [|c pre IH]; [done|]. rewrite append_cons. simpl. by rewrite IH.
Qed.

Lemma prefix_append old post : String.prefix old (old +:+ post) = true.
Proof.
  induction old as [|c old IH]; [by destruct post|].
  rewrite append_cons. simpl. destruct (Ascii.ascii_dec c c); [exact IH | done].
Qed.

Lemma prefix_split old content :
  String.prefix old content = true → ∃ post, content = old +:+ post.
Proof.
  revert content. induction old as [|c old IH]; intros content H.
  - by exists content.
  - destruct content as [|c' content]; [done|]. simpl in H.
    destruct (Ascii.ascii_dec c c') as [<-|]; [|done].
    destruct (IH _ H) as [post ->]. by exists post.
Qed.

Lemma occurs_unfold old content :
  occurs old content
  = String.prefix old content
    || match content with
       | EmptyString => false
       | String _ rest => occurs old rest
       end.
Proof. by destruct content. Qed.

(** [old in content] holds exactly when the text splits around [old]. *)
Lemma occurs_split old content :
  occurs old content = true ↔ ∃ pre post, content = pre +:+ old +:+ post.
Proof.
  split.
  - induction content as [|c content IH]; rewrite occurs_unfold;
      intros [H|H]%orb_true_iff.
    + destruct (prefix_split _ _ H) as [post ->]. by exists "", post.
    + done.
    + destruct (prefix_split _ _ H) as [post ->]. by exists "", post.
    + destruct (IH H) as (pre & post & ->). by exists (String c pre), post.
  - intros (pre & post & ->). induction pre as [|c pre IH].
    + rewrite append_nil, occurs_unfold, prefix_append. done.
    + rewrite append_cons, occurs_unfold, IH. by rewrite orb_true_r.
Qed.

(** Where the pattern occurs, the replacement is in the result. *)
Lemma replace_puts_new old new content :
  old ≠ "" → occurs old content = true →
  ∃ pre post, replace old new content = pre +:+ new +:+ post.
Proof.
  intros Hne. unfold replace. destruct old as [|o old']; [done|].
  set (old := String o old') in *.
  induction content as [|c content IH]; rewrite occurs_unfold;
    intros [H|H]%orb_true_iff; try done.
  - simpl. simpl in H. rewrite H. by eexists "", _.
  - destruct (String.prefix old (String c content)) eqn:Hp.
    + simpl. simpl in Hp. rewrite Hp. by eexists "", _.
    + destruct (IH H) as (pre & post & Hr).
      exists (String c pre), post. simpl. simpl in Hp. rewrite Hp.
      by rewrite Hr.
Qed.

(** A replacement at least as long as the pattern never shortens the text. *)
Lemma replace_from_length skip old new content :
  old ≠ "" → (String.length old ≤ String.length new)%nat →
  (String.length content - skip
   ≤ String.length (replace_from skip old new content))%nat.
Proof.
  intros Hne Hlen. revert skip.
  induction content as [|c content IH]; intros skip; [simpl; lia|].
  destruct skip as [|k].
  - cbn [replace_from].
    destruct (String.prefix old (String c content)).
    + rewrite length_append. specialize (IH (String.length old - 1)%nat).
      destruct old; [done|]. simpl in *. lia.
    + specialize (IH 0%nat). simpl. lia.
  - specialize (IH k). simpl. lia.
Qed.

(** A longer replacement lengthens every text that holds the pattern. *)
Lemma replace_grows old new content :
  old ≠ "" → (String.length old < String.length new)%nat →
  occurs old content = true →
  (String.length content < String.length (replace old new content))%nat.
Proof.
  intros Hne Hlen. unfold replace. destruct old as [|o old']; [done|].
  set (old := String o old') in *.
  induction content as [|c content IH]; rewrite occurs_unfold;
    intros [H|H]%orb_true_iff; try done.
  - cbn [replace_from]. rewrite H. rewrite length_append.
    pose proof (replace_from_length (String.length old - 1) old new content Hne) as Hl.
    simpl in *. lia.
  - cbn [replace_from]. destruct (String.prefix old (String c content)).
    + rewrite length_append.
      pose proof (replace_from_length (String.length old - 1) old new content Hne) as Hl.
      simpl in *. lia.
    + specialize (IH H). simpl. lia.
Qed.

(** A block whose replacement holds its own pattern fires on its own output,
    and lengthens the text each time. *)
Lemma step_fires_again old new notice content printed :
  old ≠ "" → occurs old new = true →
  (String.length old < String.length new)%nat →
  occurs old content = true →
  let once := step old new notice (content, printed) in
  let twice := step old new notice once in
  once.2 = (printed ++ [notice])%list
  ∧ occurs old once.1 = true
  ∧ twice.2 = (printed ++ [notice; notice])%list
  ∧ (String.length content < String.length once.1 < String.length twice.1)%nat.
Proof.
  intros Hne Hnew Hlen Hocc once twice.
  assert (Hagain : ∀ text, occurs old text = true →
                           occurs old (replace old new text) = true).
  { intros text Ht.
    destruct (replace_puts_new old new text Hne Ht) as (pre & post & ->).
    apply occurs_split in Hnew as (a & b & ->).
    apply occurs_split. exists (pre +:+ a), (b +:+ post).
    by rewrite !append_assoc. }
  assert (H1 : once = (replace old new content, (printed ++ [notice])%list)).
  { subst once. unfold step. simpl. by rewrite Hocc. }
  assert (H2 : twice = (replace old new (replace old new content),
                        ((printed ++ [notice]) ++ [notice])%list)).
  { subst twice. rewrite H1. unfold step. simpl. by rewrite Hagain. }
  rewrite H1, H2. simpl. split_and!.
  - done.
  - by apply Hagain.
  - by rewrite <- app_assoc.
  - by apply replace_grows.
  - apply replace_grows; [done | done | by apply Hagain].
Qed.

(** [str.replace] on small texts: every occurrence from the left, none
    overlapping, and the empty pattern between all characters. *)
Example replace_samples :
  replace "ab" "x" "cabab" = "cxx"
  ∧ replace "aa" "b" "aaa" = "ba"
  ∧ replace "" "-" "ab" = "-a-b-"
  ∧ replace "ab" "x" "ba" = "ba".
Proof. repeat split; reflexivity. Qed.

(** X13.  The block that adds [API_BASE] is not idempotent.  Its replacement
    ends with the very fragment it looks for, so on any file that holds the
    fragment the patched text holds it again: a second run prints its notice
    again and makes the file longer again. *)
Theorem api_base_block_fires_on_its_own_output content printed :
  occurs old_imports content = true →
  let once := add_api_base (content, printed) in
  let twice := add_api_base once in
  once.2 = (printed ++ ["Added API_BASE constant"])%list
  ∧ occurs old_imports once.1 = true
  ∧ twice.2 = (printed ++ ["Added API_BASE constant"; "Added API_BASE constant"])%list
  ∧ (String.length content < String.length once.1 < String.length twice.1)%nat.
Proof.
  intros Hocc. apply step_fires_again; [done | by vm_compute | vm_compute; lia | done].
Qed.

(** X14.  The block that declares [processedMessageIds] is not idempotent
    either.  Its replacement starts with the two declarations it looks for, so
    a second run on the patched agent adds the declaration of the set once
    more. *)
Theorem processed_ids_block_fires_on_its_own_output content printed :
  occurs old_vars content = true →
  let once := add_processed_ids (content, printed) in
  let twice := add_processed_ids once in
  once.2 = (printed ++ ["Added processedMessageIds Set"])%list
  ∧ occurs old_vars once.1 = true
  ∧ twice.2 = (printed ++ ["Added processedMessageIds Set";
                           "Added processedMessageIds Set"])%list
  ∧ (String.length content < String.length once.1 < String.length twice.1)%nat.
Proof.
  intros Hocc. apply step_fires_again; [done | by vm_compute | vm_compute; lia | done].
Qed.

End PatchFacts.

(** ** The further properties on sample states *)

Lemma claim_handlers_fall_back_to_unpatched_witness :
  let w := {| remote := offline empty_store; local := store_A_by_X |} in
  claim_handler (remote_fetch 1000) 1000 (Some "Y") (Some "module-A") None w
  = after_fetch (claim_request (Some "Y") (Some "module-A") None)
      (old_claim_handler 1000 (Some "Y") (Some "module-A") None w)
  ∧ claim_handler (remote_fetch 1000) 1000 None (Some "module-A") None w
    = old_claim_handler 1000 None (Some "module-A") None w.
Proof.
  intros w.
  destruct (claim_handlers_fall_back_to_unpatched (remote_fetch 1000) 1000
              (Some "Y") (Some "module-A") None None w) as (_ & H & _).
  destruct (claim_handlers_fall_back_to_unpatched (remote_fetch 1000) 1000
              None (Some "module-A") None None w) as (H0 & _).
  split; [exact (H eq_refl eq_refl eq_refl) | exact (proj1 (H0 (or_introl eq_refl)))].
Defined.

Lemma lock_and_create_fall_back_to_unpatched_witness :
  let w := {| remote := offline empty_store; local := store_index_locked |} in
  lock_handler (remote_fetch 1000) 1000 "src/index.ts" "Y" None None w
  = after_fetch {| method := POST; path := "/api/locks"; query := [];
                   body := Some (object [("resourcePath", Some (JStr "src/index.ts"));
                                         ("lockedBy", Some (JStr "Y"));
                                         ("reason", str None)]) |}
      (old_lock_handler 1000 "src/index.ts" "Y" None None w).
Proof.
  intros w.
  destruct (lock_and_create_fall_back_to_unpatched (remote_fetch 1000) 1000
              "src/index.ts" "Y" None None None None None None None None w)
    as (H & _).
  exact (H eq_refl).
Defined.

Lemma unlock_and_list_fall_back_to_unpatched_witness :
  let w := {| remote := offline empty_store; local := store_index_locked |} in
  unlock_handler (remote_fetch 1000) "src/index.ts" "X" w
  = after_fetch' (unlock_request "src/index.ts")
      (old_unlock_handler "src/index.ts" "X" w).
Proof.
  intros w.
  destruct (unlock_and_list_fall_back_to_unpatched (remote_fetch 1000)
              "src/index.ts" "X" None w) as (H & _).
  exact (H eq_refl).
Defined.

Lemma claim_answer_other_than_409_is_success_witness :
  let w := {| remote := tt; local := store_A_by_X |} in
  claim_handler broken_backend 1000 (Some "Y") (Some "module-A") None w
  = (Ok (TextJson (JObj [("claimed", JBool true); ("what", JStr "module-A");
                         ("by", JStr "Y")])),
     w, [EFetch (claim_request (Some "Y") (Some "module-A") None)]).
Proof.
  intros w.
  assert (Hs : (500 : Z) ≠ 409) by discriminate.
  exact (claim_answer_other_than_409_is_success broken_backend 1000
           (Some "Y") (Some "module-A") None w
           {| res_status := 500;
              json_body := Some (JObj [("error", JStr "internal error")]) |}
           (JObj [("error", JStr "internal error")])
           eq_refl eq_refl eq_refl Hs eq_refl).
Defined.

Lemma unlock_answer_is_always_released_witness :
  let w := {| remote := tt; local := store_index_locked |} in
  unlock_handler garbled_backend "src/index.ts" "Y" w
  = (Ok (TextJson (JObj [("released", JBool true);
                         ("resourcePath", JStr "src/index.ts")])),
     w, [Earlier (EFetch (unlock_request "src/index.ts"))]).
Proof.
  intros w.
  exact (proj1 (unlock_answer_is_always_released garbled_backend
                  "src/index.ts" "Y" "X" w
                  {| res_status := 200; json_body := None |} eq_refl)).
Defined.

Lemma lock_answer_ignores_resource_type_witness :
  let w := {| remote := online empty_store; local := empty_store |} in
  lock_handler (remote_fetch 1000) 1000 "src/index.ts" "Y" (Some "folder-lock") None w
  = lock_handler (remote_fetch 1000) 1000 "src/index.ts" "Y" None None w.
Proof.
  intros w.
  exact (lock_answer_ignores_resource_type (remote_fetch 1000) 1000
           "src/index.ts" "Y" (Some "folder-lock") None None w eq_refl).
Defined.

Lemma listings_hand_on_any_json_witness :
  let w := {| remote := tt; local := store_A_by_X |} in
  list_claims_handler broken_backend 1000 (Some true) w
  = (Ok (TextJson (JObj [("error", JStr "internal error")])), w,
     [EFetch {| method := GET; path := "/api/claims"; query := []; body := None |}]).
Proof.
  intros w.
  destruct (listings_hand_on_any_json broken_backend 1000 (Some true) None w
              (JObj [("error", JStr "internal error")])) as (H & _).
  exact (H {| res_status := 500;
              json_body := Some (JObj [("error", JStr "internal error")]) |}
           eq_refl eq_refl).
Defined.

Lemma patch_only_filters_the_pipeline_witness :
  let st := Agent.run [first_hundred] Agent.initial in
  pipeline_calls (Agent.process st [numbered 7; numbered 100]).2
  = calls_on (Agent.unprocessed (Agent.processedMessageIds st)
                [numbered 7; numbered 100])
  ∧ Agent.unprocessed (Agent.processedMessageIds st) [numbered 100; numbered 100]
    = [numbered 100; numbered 100].
Proof.
  intros st.
  assert (Hnew : Agent.id (numbered 100) ∉ Agent.processedMessageIds st).
  { refine (proj1 (bool_decide_eq_false _) _). vm_compute. reflexivity. }
  split.
  - exact (proj1 (proj2 (patch_only_filters_the_pipeline st [numbered 7; numbered 100]))).
  - refine (proj1 (proj2 (proj2 (proj2
              (patch_only_filters_the_pipeline st [numbered 100; numbered 100])))) _).
    intros m Hm.
    repeat (apply elem_of_cons in Hm as [-> | Hm]);
      [exact Hnew | exact Hnew | by apply elem_of_nil in Hm].
Defined.
Lemma oversized_batch_keeps_its_last_hundred_witness :
  Agent.processedMessageIds (Agent.process Agent.initial hundred_and_one).1
  = drop (length (Agent.unprocessed (Agent.processedMessageIds Agent.initial)
                    hundred_and_one) - 100)
      (Agent.id <$> Agent.unprocessed (Agent.processedMessageIds Agent.initial)
                      hundred_and_one).
Proof.
  assert (Hnd : NoDup (Agent.id <$> Agent.unprocessed
                         (Agent.processedMessageIds Agent.initial) hundred_and_one)).
  { refine (proj1 (bool_decide_eq_true _) _). vm_compute. reflexivity. }
  assert (Hbig : (100 < length (Agent.unprocessed
                                  (Agent.processedMessageIds Agent.initial)
                                  hundred_and_one))%nat).
  { vm_compute. lia. }
  exact (proj1 (oversized_batch_keeps_its_last_hundred Agent.initial hundred_and_one
                  initial_ok Hnd Hbig)).
Defined.

Lemma forwarded_ids_are_remembered_witness :
  Agent.unprocessed
    (Agent.processedMessageIds (Agent.process Agent.initial first_hundred).1)
    (Agent.unprocessed (Agent.processedMessageIds Agent.initial) first_hundred)
  = [].
Proof.
  assert (Hsmall : (length (Agent.unprocessed (Agent.processedMessageIds Agent.initial)
                              first_hundred) ≤ 100)%nat).
  { vm_compute. lia. }
  exact (proj2 (forwarded_ids_are_remembered Agent.initial first_hundred
                  initial_ok Hsmall)).
Defined.

Lemma full_window_drops_its_oldest_witness :
  let st := Agent.run [first_hundred] Agent.initial in
  "0" ∉ Agent.processedMessageIds (Agent.process st [numbered 0; numbered 100]).1.
Proof.
  intros st.
  assert (Hwin : Agent.processedMessageIds st = "0" :: (pretty <$> seq 1 99))
    by (vm_compute; reflexivity).
  assert (Hfull : Agent.size (Agent.processedMessageIds st) = 100%nat)
    by (vm_compute; reflexivity).
  assert (Hfresh : Agent.unprocessed (Agent.processedMessageIds st)
                     [numbered 0; numbered 100] ≠ []).
  { vm_compute. discriminate. }
  exact (full_window_drops_its_oldest st [numbered 0; numbered 100] "0"
           (pretty <$> seq 1 99) (run_ok [first_hundred] Agent.initial initial_ok)
           Hwin Hfull Hfresh).
Defined.

Lemma window_holds_fetched_ids_only_witness :
  ∃ b m, b ∈ [first_hundred] ∧ m ∈ b ∧ Agent.id m = "5".
Proof.
  apply (window_holds_fetched_ids_only [first_hundred] "5").
  refine (proj1 (bool_decide_eq_true _) _). vm_compute. reflexivity.
Defined.

Lemma api_base_block_fires_on_its_own_output_witness :
  (Patch.add_api_base (Patch.add_api_base (Patch.old_imports, []))).2
  = ["Added API_BASE constant"; "Added API_BASE constant"].
Proof.
  assert (Hocc : Patch.occurs Patch.old_imports Patch.old_imports = true)
    by (vm_compute; reflexivity).
  destruct (api_base_block_fires_on_its_own_output Patch.old_imports [] Hocc)
    as (_ & _ & H & _).
  exact H.
Defined.

Lemma processed_ids_block_fires_on_its_own_output_witness :
  (Patch.add_processed_ids (Patch.add_processed_ids (Patch.old_vars, []))).2
  = ["Added processedMessageIds Set"; "Added processedMessageIds Set"].
Proof.
  assert (Hocc : Patch.occurs Patch.old_vars Patch.old_vars = true)
    by (vm_compute; reflexivity).
  destruct (processed_ids_block_fires_on_its_own_output Patch.old_vars [] Hocc)
    as (_ & _ & H & _).
  exact H.
Defined.

Section CreateAnswers.

Context {R : Type} (fetch_impl : request -> R -> fetch_outcome * R) (now : Z).

(** X15.  Every answer to a task creation that can be read counts as success:
    whatever the status, a JSON body other than [null] gives
    [{created: true, task: data.task}], without the [task] property when the
    body has none, and the local store is not called. *)
Theorem task_create_answer_is_always_created
    (args_title args_description args_priority args_createdBy args_assignee : option string)
    (args_tags : option (list string)) (w : world R) res data :
  truthy args_title = true → truthy args_createdBy = true →
  let req :=
    {| method := POST; path := "/api/tasks"; query := [];
       body := Some (object (task_input_props
                               {| title := default "" args_title;
                                  description := args_description;
                                  priority := or_else args_priority "medium";
                                  status := "todo";
                                  createdBy := default "" args_createdBy;
                                  assignee := args_assignee;
                                  tags := default [] args_tags |})) |} in
  (fetch_impl req (remote w)).1 = Responded res →
  json_body res = Some data → data ≠ JNull →
  task_create_handler fetch_impl now args_title args_description args_priority
    args_createdBy args_assignee args_tags w
  = (Ok (TextJson (object [("created", Some (JBool true));
                           ("task", field "task" data)])),
     {| remote := (fetch_impl req (remote w)).2; local := local w |},
     [EFetch req]).
Proof.
  intros Ht Hc req Ho Hb Hn. unfold task_create_handler. rewrite Ht, Hc. simpl.
  unfold try_catch, bind, fetch. fold req.
  destruct (fetch_impl req (remote w)) as [o r]. simpl in Ho. subst o. simpl.
  unfold res_json, lift. rewrite Hb. simpl.
  destruct data; try done.
Qed.

End CreateAnswers.

Lemma task_create_answer_is_always_created_witness :
  let w := {| remote := tt; local := empty_store |} in
  (task_create_handler broken_backend 1000 (Some "Fix the build") None None
     (Some "X") None None w).1.1
  = Ok (TextJson (JObj [("created", JBool true)])).
Proof.
  intros w.
  assert (Hn : JObj [("error", JStr "internal error")] ≠ JNull) by discriminate.
  rewrite (task_create_answer_is_always_created broken_backend 1000
             (Some "Fix the build") None None (Some "X") None None w
             {| res_status := 500;
                json_body := Some (JObj [("error", JStr "internal error")]) |}
             (JObj [("error", JStr "internal error")])
             eq_refl eq_refl eq_refl eq_refl Hn).
  reflexivity.
Defined.

(** * At most one reaction *)

Section AtMostOnce.

Import Agent.

Implicit Types (s : list string) (xs : list string) (st : state).

Lemma elem_of_delete x y s : x ∈ delete y s ↔ x ∈ s ∧ x ≠ y.
Proof. unfold delete. rewrite list_elem_of_filter. tauto. Qed.

(** What is left after forgetting [xs]: the ids of the set that are not among
    them. *)
Lemma elem_of_delete_all x xs s : x ∈ delete_all xs s ↔ x ∈ s ∧ x ∉ xs.
Proof.
  revert s. induction xs as [|y xs IH]; intros s; simpl.
  - split; [intros H; split; [done | apply not_elem_of_nil] | tauto].
  - rewrite IH, elem_of_delete, not_elem_of_cons. tauto.
Qed.

(** An id of the marked set is kept by the trim or named by one of its
    [Forget] effects. *)
Lemma trim_keeps_or_forgets x s :
  x ∈ s → x ∈ trim s ∨ Forget x ∈ trim_effects s.
Proof.
  intros Hx. unfold trim, trim_effects. case_decide; [|by left].
  destruct (decide (x ∈ take (size s - 100) s)) as [Hin|Hout].
  - right. apply list_elem_of_fmap. by exists x.
  - left. by apply elem_of_delete_all.
Qed.

Lemma forget_only_on_overflow x s :
  Forget x ∈ trim_effects s → (100 < size s)%nat ∧ x ∈ s.
Proof.
  unfold trim_effects. case_decide as Hbig; [|by intros ?%elem_of_nil].
  intros (y & [= ->] & Hy)%list_elem_of_fmap. split; [done|].
  by apply subseteq_take in Hy.
Qed.

(** The effects of a pass, written out. *)
Lemma process_effects st (newMessages : list Message) :
  unprocessed (processedMessageIds st) newMessages ≠ [] →
  process st newMessages
  = ({| lastProcessedTimestamp := timestamp <$> last newMessages;
        processedMessageIds :=
          trim (add_all (id <$> unprocessed (processedMessageIds st) newMessages)
                  (processedMessageIds st)) |},
     ([LogFound (length newMessages)]
        ++ (MarkProcessed ∘ id <$> unprocessed (processedMessageIds st) newMessages)
        ++ trim_effects
             (add_all (id <$> unprocessed (processedMessageIds st) newMessages)
                (processedMessageIds st))
        ++ [ProcessMessages (entry <$> unprocessed (processedMessageIds st) newMessages);
            CheckForRenameCommand (unprocessed (processedMessageIds st) newMessages);
            ShouldRespond (unprocessed (processedMessageIds st) newMessages)])%list).
Proof.
  intros Hne. unfold process.
  assert (Hlen : (0 < length newMessages)%nat).
  { destruct newMessages; [done | simpl; lia]. }
  rewrite decide_True by done.
  rewrite decide_False; [done|]. by intros ?%length_zero_iff_nil.
Qed.

Lemma process_skips st (newMessages : list Message) :
  unprocessed (processedMessageIds st) newMessages = [] →
  processedMessageIds (process st newMessages).1 = processedMessageIds st
  ∧ ∀ e, e ∈ (process st newMessages).2 → pipeline e = false ∧ forwarded e = []
         ∧ ∀ x, e ≠ Forget x.
Proof.
  intros Hnone. unfold process. rewrite Hnone. simpl.
  case_decide; simpl; (split; [done|]); intros e He.
  - repeat (apply elem_of_cons in He as [-> | He]); [done | done |].
    by apply elem_of_nil in He.
  - by apply elem_of_nil in He.
Qed.

(** Where a pass hands messages on, they are the unseen ones. *)
Lemma forwarded_are_unseen st (newMessages : list Message) e m :
  e ∈ (process st newMessages).2 → m ∈ forwarded e →
  m ∈ unprocessed (processedMessageIds st) newMessages.
Proof.
  intros He Hm.
  destruct (decide (unprocessed (processedMessageIds st) newMessages = []))
    as [Hf|Hf].
  - destruct (process_skips st newMessages Hf) as [_ Hnone].
    destruct (Hnone e He) as (_ & Hfw & _). rewrite Hfw in Hm.
    by apply elem_of_nil in Hm.
  - rewrite (process_effects st newMessages Hf) in He. simpl in He.
    rewrite elem_of_cons, !elem_of_app, !elem_of_cons in He.
    destruct He as [->|[He|[He|[->|[->|[->|He]]]]]]; simpl in Hm; try done.
    + by apply elem_of_nil in Hm.
    + apply list_elem_of_fmap in He as (y & -> & _). by apply elem_of_nil in Hm.
    + unfold trim_effects in He. case_decide; [|by apply elem_of_nil in He].
      apply list_elem_of_fmap in He as (y & -> & _). by apply elem_of_nil in Hm.
    + by apply elem_of_nil in Hm.
    + by apply elem_of_nil in He.
Qed.

(** C8 (at most one reaction).  The messages of a pass that go on are exactly
    the fetched ones whose id is not in the window, and when anything goes on,
    every id that does was marked earlier in the pass: the trace ends with the
    three pipeline calls on the unseen messages, and all marks come before
    them.  Marking is kept in the window: an id that was in the window or was
    handed on in this pass is in the window after it, unless the pass forgot it
    by name, which it only does when the marked window has outgrown 100 ids.
    So no later pass hands on a message whose id the window still holds. *)
Theorem seen_dropped_unseen_marked_first st (newMessages : list Message) :
  let window := processedMessageIds st in
  let fresh := unprocessed window newMessages in
  let marked := add_all (id <$> fresh) window in
  let trace := (process st newMessages).2 in
  let st' := (process st newMessages).1 in
  (∀ m, m ∈ fresh ↔ m ∈ newMessages ∧ id m ∉ window)
  ∧ (∀ e m, e ∈ trace → m ∈ forwarded e → m ∈ newMessages ∧ id m ∉ window)
  ∧ ((fresh = [] ∧ ∀ e, e ∈ trace → pipeline e = false)
     ∨ ∃ before,
         trace = (before ++ [ProcessMessages (entry <$> fresh);
                             CheckForRenameCommand fresh;
                             ShouldRespond fresh])%list
         ∧ (∀ e, e ∈ before → pipeline e = false)
         ∧ (∀ m, m ∈ fresh → MarkProcessed (id m) ∈ before))
  ∧ (∀ x, x ∈ window ∨ (∃ m, m ∈ fresh ∧ id m = x) →
          x ∈ processedMessageIds st' ∨ Forget x ∈ trace)
  ∧ (∀ x, Forget x ∈ trace → (100 < size marked)%nat ∧ x ∈ marked)
  ∧ (∀ x, x ∈ window ∨ (∃ m, m ∈ fresh ∧ id m = x) → Forget x ∉ trace →
          ∀ next e m, e ∈ (process st' next).2 → m ∈ forwarded e → id m ≠ x).
Proof.
  intros window fresh marked trace st'.
  assert (Hfresh : ∀ m, m ∈ fresh ↔ m ∈ newMessages ∧ id m ∉ window).
  { intros m. unfold fresh, unprocessed.
    rewrite list_elem_of_filter, has_false. tauto. }
  assert (Hmarked : ∀ x, x ∈ window ∨ (∃ m, m ∈ fresh ∧ id m = x) → x ∈ marked).
  { intros x Hx. unfold marked.
    destruct (add_all_appends (id <$> fresh) window) as (ys & -> & _ & Hin & _).
    destruct Hx as [Hx | (m & Hm & <-)].
    - apply elem_of_app. by left.
    - apply Hin, list_elem_of_fmap. by exists m. }
  assert (Hkept : ∀ x, x ∈ window ∨ (∃ m, m ∈ fresh ∧ id m = x) →
                       x ∈ processedMessageIds st' ∨ Forget x ∈ trace).
  { intros x Hx. destruct (decide (fresh = [])) as [Hf|Hf].
    - destruct (process_skips st newMessages Hf) as [Hw _].
      left. unfold st'. rewrite Hw.
      destruct Hx as [Hx | (m & Hm & _)]; [done|].
      rewrite Hf in Hm. by apply elem_of_nil in Hm.
    - unfold st', trace. rewrite (process_effects st newMessages Hf). simpl.
      destruct (trim_keeps_or_forgets x marked (Hmarked x Hx)) as [Hk | Hg];
        [by left|].
      right. rewrite elem_of_cons, !elem_of_app. right; right; left. exact Hg. }
  assert (Hforget : ∀ x, Forget x ∈ trace → (100 < size marked)%nat ∧ x ∈ marked).
  { intros x Hx. destruct (decide (fresh = [])) as [Hf|Hf].
    - destruct (process_skips st newMessages Hf) as [_ Hnone].
      destruct (Hnone _ Hx) as (_ & _ & Hne). by destruct (Hne x).
    - unfold trace in Hx. rewrite (process_effects st newMessages Hf) in Hx.
      simpl in Hx. rewrite elem_of_cons, !elem_of_app, !elem_of_cons in Hx.
      destruct Hx as [Hx|[Hx|[Hx|[Hx|[Hx|[Hx|Hx]]]]]]; try discriminate Hx.
      + by apply list_elem_of_fmap in Hx as (y & [=] & _).
      + by apply forget_only_on_overflow.
      + by apply elem_of_nil in Hx. }
  assert (Hforwarded : ∀ e m, e ∈ trace → m ∈ forwarded e →
                              m ∈ newMessages ∧ id m ∉ window).
  { intros e m He Hm. apply Hfresh. by eapply forwarded_are_unseen. }
  split_and!; [exact Hfresh | exact Hforwarded | | exact Hkept | exact Hforget |].
  - destruct (decide (fresh = [])) as [Hf|Hf].
    + left. split; [done|]. intros e He.
      destruct (process_skips st newMessages Hf) as [_ Hnone].
      by destruct (Hnone e He).
    + right. unfold trace. rewrite (process_effects st newMessages Hf).
      exists ([LogFound (length newMessages)]
                ++ (MarkProcessed ∘ id <$> fresh)
                ++ trim_effects marked)%list.
      split_and!.
      * by rewrite <- !app_assoc.
      * intros e. rewrite !elem_of_app.
        intros [->%list_elem_of_singleton|[(m & -> & _)%list_elem_of_fmap|He]];
          [done..|].
        unfold trim_effects in He. case_decide; [|by apply elem_of_nil in He].
        by apply list_elem_of_fmap in He as (y & -> & _).
      * intros m Hm. rewrite !elem_of_app. right. left.
        apply list_elem_of_fmap. by exists m.
  - intros x Hx Hnot next e m He Hm.
    destruct (Hkept x Hx) as [Hin | Hg]; [|done].
    apply (forwarded_are_unseen st' next e m He) in Hm.
    apply unprocessed_unseen in Hm. intros Heq. apply Hm. by rewrite Heq.
Qed.

End AtMostOnce.

Lemma seen_dropped_unseen_marked_first_witness :
  let st := Agent.run [first_hundred] Agent.initial in
  let batch := [numbered 7; numbered 100] in
  let fresh := Agent.unprocessed (Agent.processedMessageIds st) batch in
  let st' := (Agent.process st batch).1 in
  numbered 100 ∈ fresh ∧ (numbered 7 ∉ fresh)
  ∧ (Agent.id (numbered 7) ∈ Agent.processedMessageIds st'
     ∨ Agent.Forget (Agent.id (numbered 7)) ∈ (Agent.process st batch).2)
  ∧ (∀ next e m, e ∈ (Agent.process st' next).2 → m ∈ Agent.forwarded e →
                 Agent.id m ≠ Agent.id (numbered 7))
  ∧ (∀ next e m, e ∈ (Agent.process st' next).2 → m ∈ Agent.forwarded e →
                 Agent.id m ≠ Agent.id (numbered 100)).
Proof.
  intros st batch fresh st'.
  destruct (seen_dropped_unseen_marked_first st batch)
    as (Hfresh & _ & _ & Hkept & _ & Honce).
  assert (Hseen : Agent.id (numbered 7) ∈ Agent.processedMessageIds st).
  { refine (proj1 (bool_decide_eq_true _) _). vm_compute. reflexivity. }
  assert (Hnew : Agent.id (numbered 100) ∉ Agent.processedMessageIds st).
  { refine (proj1 (bool_decide_eq_false _) _). vm_compute. reflexivity. }
  assert (Hin : numbered 100 ∈ fresh).
  { apply Hfresh. split; [right; left | exact Hnew]. }
  assert (Htrace : (Agent.process st batch).2
                   = [Agent.LogFound 2;
                      Agent.MarkProcessed (Agent.id (numbered 100));
                      Agent.Forget (Agent.id (numbered 0));
                      Agent.ProcessMessages [Agent.entry (numbered 100)];
                      Agent.CheckForRenameCommand [numbered 100];
                      Agent.ShouldRespond [numbered 100]]).
  { vm_compute. reflexivity. }
  assert (Hzero : ∀ n, bool_decide (Agent.id (numbered n) = Agent.id (numbered 0)) = false →
                       Agent.Forget (Agent.id (numbered n)) ∉ (Agent.process st batch).2).
  { intros n Hn%bool_decide_eq_false. rewrite Htrace. intros H.
    repeat (apply elem_of_cons in H as [H | H]); try discriminate H.
    - apply Hn. congruence.
    - apply elem_of_nil in H. exact H. }
  split_and!.
  - exact Hin.
  - intros Hm. apply Hfresh in Hm. destruct Hm as [_ Hout]. exact (Hout Hseen).
  - apply Hkept. left. exact Hseen.
  - apply (Honce (Agent.id (numbered 7))).
    + left. exact Hseen.
    + apply (Hzero 7%nat). vm_compute. reflexivity.
  - apply (Honce (Agent.id (numbered 100))).
    + right. exists (numbered 100). split; [exact Hin | exact eq_refl].
    + apply (Hzero 100%nat). vm_compute. reflexivity.
Defined.
